(** * aws configure import: the CSV credential parser and the config merge

    A shallow embedding of [awscli/customizations/configure/importer.py].

    Python 3 [str] values are embedded as [string]; a character is a code
    point below 256 (Latin-1), which is the range where the tables of
    [str.strip], [str.lower] and [str.splitlines] are written out below.
    Exceptions are embedded as the left summand of a sum type.  The
    writer of the config file (writer.py) is not among the sources; its
    merge is modelled from the specification, on the lines of the file. *)

From Stdlib Require Import String Ascii List Bool Arith Lia DecimalString DecimalNat.
Import ListNotations.
Open Scope string_scope.
Open Scope list_scope.
Open Scope nat_scope.

(** ** Python's built-in string and list operations *)

Module Py.

Definition ord (c : ascii) : nat := nat_of_ascii c.

(** [c.isspace()] on code points below 256: TAB..CR, FS..US, SPACE,
    NEL and NBSP. *)
Definition isspace (c : ascii) : bool :=
  let n := ord c in
  ((9 <=? n) && (n <=? 13)) || ((28 <=? n) && (n <=? 32))
  || (n =? 133) || (n =? 160).

(** Line boundaries of [str.splitlines]: LF, VT, FF, CR, FS, GS, RS, NEL. *)
Definition is_linebreak (c : ascii) : bool :=
  let n := ord c in
  ((10 <=? n) && (n <=? 13)) || ((28 <=? n) && (n <=? 30)) || (n =? 133).

Definition LF : ascii := "010"%char.
Definition CR : ascii := "013"%char.

(** [c.lower()]: A..Z and the Latin-1 capitals (except the
    multiplication sign) move up by 32. *)
Definition lower_char (c : ascii) : ascii :=
  let n := ord c in
  if ((65 <=? n) && (n <=? 90))
     || ((192 <=? n) && (n <=? 222) && negb (n =? 215))
  then ascii_of_nat (n + 32) else c.

Fixpoint lower (s : string) : string :=
  match s with
  | EmptyString => EmptyString
  | String c s' => String (lower_char c) (lower s')
  end.

Fixpoint lstrip (s : string) : string :=
  match s with
  | EmptyString => EmptyString
  | String c s' => if isspace c then lstrip s' else s
  end.

Fixpoint rstrip (s : string) : string :=
  match s with
  | EmptyString => EmptyString
  | String c s' =>
      match rstrip s' with
      | EmptyString => if isspace c then EmptyString else String c EmptyString
      | r => String c r
      end
  end.

(** [s.strip()] *)
Definition strip (s : string) : string := rstrip (lstrip s).

(** [not s], the truth value of a string *)
Definition is_empty (s : string) : bool :=
  match s with EmptyString => true | _ => false end.

(** Prepends a character to the first element of a list of pieces. *)
Definition cons_first (c : ascii) (l : list string) : list string :=
  match l with
  | [] => [String c EmptyString]
  | f :: fs => String c f :: fs
  end.

(** [s.split(sep)] for a one-character separator *)
Fixpoint split (sep : ascii) (s : string) : list string :=
  match s with
  | EmptyString => [EmptyString]
  | String c s' =>
      if Ascii.eqb c sep then EmptyString :: split sep s'
      else cons_first c (split sep s')
  end.

(** [s.splitlines()]: a line ends at a line boundary, CR LF counts as
    one boundary, and no empty piece follows a final boundary. *)
Fixpoint splitlines (s : string) : list string :=
  match s with
  | EmptyString => []
  | String c s' =>
      if is_linebreak c then
        match s' with
        | String c' s'' =>
            if Ascii.eqb c CR && Ascii.eqb c' LF
            then EmptyString :: splitlines s''
            else EmptyString :: splitlines s'
        | EmptyString => [EmptyString]
        end
      else cons_first c (splitlines s')
  end.

(** [x in l] *)
Definition contains (x : string) (l : list string) : bool :=
  existsb (String.eqb x) l.

(** [l.index(x)]: the first position of [x]; [None] stands for the
    [ValueError] of an absent element. *)
Fixpoint index (x : string) (l : list string) : option nat :=
  match l with
  | [] => None
  | y :: l' =>
      if String.eqb y x then Some 0
      else match index x l' with
           | Some i => Some (S i)
           | None => None
           end
  end.

(** ['%s' % n] for a non-negative integer *)
Definition str_of_nat (n : nat) : string :=
  NilEmpty.string_of_uint (Nat.to_uint n).

Definition quote : string := String "034"%char EmptyString.
Definition nl : string := String LF EmptyString.

End Py.

(** ** Exceptions *)

Inductive exn : Type :=
| CredentialParserError (msg : string)
| IndexError
| ValueError.

Definition result (A : Type) : Type := (exn + A)%type.

Definition ret {A} (a : A) : result A := inr a.
Definition raise {A} (e : exn) : result A := inl e.

Notation "x <- c ;; k" :=
  (match c with inl e => inl e | inr x => k end)
    (at level 61, c at next level, right associativity).

(** [l[i]] for a non-negative index *)
Definition getitem {A} (l : list A) (i : nat) : result A :=
  match nth_error l i with
  | Some a => ret a
  | None => raise IndexError
  end.

(** ** CSVCredentialParser *)

Definition Credential : Type := (string * string * string)%type.

Record CSVCredentialParser : Type := { strict : bool }.

Definition _USERNAME_HEADER : string := "User Name".
Definition _AKID_HEADER : string := "Access Key ID".
Definition _SAK_HEADER : string := "Secret Access key".
Definition _EXPECTED_HEADERS : list string :=
  [_USERNAME_HEADER; _AKID_HEADER; _SAK_HEADER].

Definition _EMPTY_CSV : string := "Provided CSV contains no contents".
Definition _HEADER_NOT_FOUND (header : string) : string :=
  "Expected header " ++ Py.quote ++ header ++ Py.quote ++ " not found".
Definition _INVALID_USERNAME (count : nat) : string :=
  "Failed to parse User Name for entry #" ++ Py.str_of_nat count.
Definition _INVALID_SECRET (count : nat) : string :=
  "Failed to parse Access Key ID or Secret Access Key for entry #"
  ++ Py.str_of_nat count.

Definition _format_header (header : string) : string :=
  Py.strip (Py.lower header).

(** The [for header in self._EXPECTED_HEADERS] loop, with the list
    [indices] built so far. *)
Fixpoint headers_loop (parsed_headers expected : list string)
    (indices : list nat) : result (list nat) :=
  match expected with
  | [] => ret indices
  | header :: expected' =>
      let formatted_header := _format_header header in
      if negb (Py.contains formatted_header parsed_headers)
      then raise (CredentialParserError (_HEADER_NOT_FOUND header))
      else
        match Py.index formatted_header parsed_headers with
        | Some i => headers_loop parsed_headers expected' (indices ++ [i])
        | None => raise ValueError
        end
  end.

Definition _parse_csv_headers (header : string) : result (list nat) :=
  let parsed_headers := map _format_header (Py.split "," header) in
  headers_loop parsed_headers _EXPECTED_HEADERS [].

(** The [for user in rows] loop, with the running [count] and the list
    [credentials] built so far. *)
Fixpoint rows_loop (self : CSVCredentialParser)
    (username_index akid_index sak_index : nat)
    (rows : list string) (count : nat) (credentials : list Credential)
  : result (list Credential) :=
  match rows with
  | [] => ret credentials
  | user :: rows' =>
      let count := count + 1 in
      let cols := Py.split "," user in
      c_username <- getitem cols username_index ;;
      let username := Py.strip c_username in
      c_akid <- getitem cols akid_index ;;
      let akid := Py.strip c_akid in
      c_sak <- getitem cols sak_index ;;
      let sak := Py.strip c_sak in
      if Py.is_empty username then
        if strict self
        then raise (CredentialParserError (_INVALID_USERNAME count))
        else rows_loop self username_index akid_index sak_index
               rows' count credentials
      else if Py.is_empty akid || Py.is_empty sak then
        if strict self
        then raise (CredentialParserError (_INVALID_SECRET count))
        else rows_loop self username_index akid_index sak_index
               rows' count credentials
      else rows_loop self username_index akid_index sak_index
             rows' count (credentials ++ [(username, akid, sak)])
  end.

Definition _parse_csv_rows (self : CSVCredentialParser)
    (rows : list string) (headers : list nat) : result (list Credential) :=
  match headers with
  | [username_index; akid_index; sak_index] =>
      rows_loop self username_index akid_index sak_index rows 0 []
  | _ => raise ValueError
  end.

Definition _parse_csv (self : CSVCredentialParser) (csv : string)
  : result (list Credential) :=
  if Py.is_empty (Py.strip csv)
  then raise (CredentialParserError _EMPTY_CSV)
  else
    let lines := Py.splitlines csv in
    line0 <- getitem lines 0 ;;
    parsed_headers <- _parse_csv_headers line0 ;;
    _parse_csv_rows self (tl lines) parsed_headers.

Definition parse_credentials (self : CSVCredentialParser)
    (contents : string) : result (list Credential) :=
  _parse_csv self contents.

(** ** Vocabulary of the statements about the parser *)

(** A string made of whitespace only (the empty string included). *)
Fixpoint blank (s : string) : bool :=
  match s with
  | EmptyString => true
  | String c s' => Py.isspace c && blank s'
  end.

(** The column of a required label in a header row: the first field
    that equals the label once both are lower-cased and trimmed. *)
Definition position (label header : string) : option nat :=
  Py.index (_format_header label) (map _format_header (Py.split "," header)).

(** The three trimmed fields of a data row at the columns [u], [a], [s];
    [None] when the row has no field at one of them. *)
Definition fields (u a s : nat) (row : string) : option Credential :=
  let cols := Py.split "," row in
  match nth_error cols u, nth_error cols a, nth_error cols s with
  | Some fu, Some fa, Some fs => Some (Py.strip fu, Py.strip fa, Py.strip fs)
  | _, _, _ => None
  end.

(** All three fields of a triple are non-empty. *)
Definition complete (c : Credential) : bool :=
  let '(username, akid, sak) := c in
  negb (Py.is_empty username) && negb (Py.is_empty akid)
  && negb (Py.is_empty sak).

(** The triples of the rows that have a field at each of the columns. *)
Definition triples (u a s : nat) (rows : list string) : list Credential :=
  flat_map (fun row => match fields u a s row with
                       | Some c => [c]
                       | None => []
                       end) rows.

(** A row the loop goes past without raising. *)
Definition passes (self : CSVCredentialParser) (u a s : nat) (row : string)
  : Prop :=
  exists c, fields u a s row = Some c
            /\ (complete c = true \/ strict self = false).

(** The text ends in a line boundary that a following LF does not merge
    with (any boundary but CR). *)
Fixpoint ends_with_break (s : string) : bool :=
  match s with
  | EmptyString => false
  | String c EmptyString => Py.is_linebreak c && negb (Ascii.eqb c Py.CR)
  | String _ s' => ends_with_break s'
  end.

(** The first required label, in the order of [_EXPECTED_HEADERS], that
    has no column in the header row. *)
Definition missing_label (header : string) : option string :=
  find (fun label => match position label header with
                     | None => true
                     | Some _ => false
                     end) _EXPECTED_HEADERS.

(** ** CredentialImporter and the merge of a profile into the config file *)

(** The dictionary [config_profile] of [import_credential]: the section
    name under ['__section__'] and the two keys with fixed names. *)
Record ConfigProfile : Type := {
  sectionName : string;
  aws_access_key_id : string;
  aws_secret_access_key : string
}.

(** The key/value pairs of a profile, in the order of the dictionary. *)
Definition items (profile : ConfigProfile) : list (string * string) :=
  [("aws_access_key_id", aws_access_key_id profile);
   ("aws_secret_access_key", aws_secret_access_key profile)].

(** The content of the config file, held as its sequence of lines. *)
Definition ConfigFile : Type := list string.

Module ConfigMergeWriter.

(** Modelled from the spec: a helper of the model of the missing writer,
    the first character of a line that is not whitespace. *)
Fixpoint first_char (line : string) : option ascii :=
  match line with
  | EmptyString => None
  | String c line' => if Py.isspace c then first_char line' else Some c
  end.

(** Modelled from the spec: a helper of the model of the missing writer,
    the text before and the text after the first [sep]. *)
Fixpoint cut (sep : ascii) (s : string) : option (string * string) :=
  match s with
  | EmptyString => None
  | String c s' =>
      if Ascii.eqb c sep then Some (EmptyString, s')
      else match cut sep s' with
           | Some (b, a) => Some (String c b, a)
           | None => None
           end
  end.

(** Modelled from the spec: a helper of the model of the missing writer,
    [Some n] when the text is [n] followed by a closing bracket. *)
Fixpoint chop_bracket (r : string) : option string :=
  match r with
  | EmptyString => None
  | String c r' =>
      match r' with
      | EmptyString => if Ascii.eqb c "]" then Some EmptyString else None
      | _ => match chop_bracket r' with
             | Some n => Some (String c n)
             | None => None
             end
      end
  end.

(** Modelled from the spec: the section-header line that
    [ConfigFileWriter] (writer.py, not among the sources) writes for a
    section; the bracket-delimited syntax of section 6, the section name
    being the text between the brackets. *)
Definition section_header (name : string) : string :=
  "[" ++ name ++ "]".

(** Modelled from the spec: how the missing writer recognises a section
    header line (section 4.2, step 2): the line, trimmed, opens with a
    bracket and closes with one; the name is the text between them. *)
Definition header_name (line : string) : option string :=
  match Py.strip line with
  | String "["%char r => chop_bracket r
  | _ => None
  end.

(** Modelled from the spec: the test of the missing writer for a header
    line of any section (section 4.2, step 2). *)
Definition is_header (line : string) : bool :=
  match header_name line with Some _ => true | None => false end.

(** Modelled from the spec: the key token of a [key = value] line of the
    missing writer (section 4.2, step 3): the text before the first [=],
    trimmed.  Section headers and [#] comments (section 6) are not
    [key = value] lines. *)
Definition line_key (line : string) : option string :=
  match first_char line with
  | None => None
  | Some c =>
      if Ascii.eqb c "["%char || Ascii.eqb c "#"%char then None
      else match cut "=" line with
           | Some (b, _) => Some (Py.strip b)
           | None => None
           end
  end.

(** Modelled from the spec: the comparison of the missing writer
    between a key of the profile and the key token of a line (section
    4.2, step 3). *)
Definition has_key (key line : string) : bool :=
  match line_key line with
  | Some k => String.eqb k key
  | None => false
  end.

(** Modelled from the spec: the part of a [key = value] line that the
    missing writer keeps when it replaces the value in place (section
    4.2, step 3): the indentation, the key and the [=]. *)
Definition key_prefix (line : string) : string :=
  match cut "=" line with
  | Some (b, _) => b ++ "="
  | None => line
  end.

(** Modelled from the spec: the line of the missing writer after its
    value is replaced in place (section 4.2, step 3): what follows the
    [=] becomes a space and the new value. *)
Definition set_value (line value : string) : string :=
  key_prefix line ++ " " ++ value.

(** Modelled from the spec: the new line the missing writer appends for
    a key (section 4.2, step 3): two spaces of indentation, then the key
    and the value separated by [ = ]. *)
Definition key_line (key value : string) : string :=
  "  " ++ key ++ " = " ++ value.

(** Modelled from the spec: the search of the missing writer for the
    section of a name (section 4.2, step 2): the lines before the first
    header line of that name, that line, and the lines after it. *)
Fixpoint find_section (name : string) (lines : ConfigFile)
  : option (ConfigFile * string * ConfigFile) :=
  match lines with
  | [] => None
  | l :: lines' =>
      match header_name l with
      | Some n =>
          if String.eqb n name then Some ([], l, lines')
          else match find_section name lines' with
               | Some (pre, h, post) => Some (l :: pre, h, post)
               | None => None
               end
      | None =>
          match find_section name lines' with
          | Some (pre, h, post) => Some (l :: pre, h, post)
          | None => None
          end
      end
  end.

(** Modelled from the spec: the span of a section in the missing writer
    (section 4.2, step 2): the lines after its header up to, and not
    including, the next header line or the end of the file; the second
    component is what follows the span. *)
Fixpoint span_of (lines : ConfigFile) : ConfigFile * ConfigFile :=
  match lines with
  | [] => ([], [])
  | l :: lines' =>
      if is_header l then ([], lines)
      else let (span, rest) := span_of lines' in (l :: span, rest)
  end.

(** Modelled from the spec: the replacement by the missing writer of the
    value of the first line of a key in a span (section 4.2, step 3);
    [None] when the span has no line of that key. *)
Fixpoint replace_key (key value : string) (span : ConfigFile)
  : option ConfigFile :=
  match span with
  | [] => None
  | l :: span' =>
      if has_key key l then Some (set_value l value :: span')
      else match replace_key key value span' with
           | Some r => Some (l :: r)
           | None => None
           end
  end.

(** Modelled from the spec: one key of the profile in the missing writer
    (section 4.2, step 3): its line is updated in place if the span has
    one, and a new line is appended at the end of the span otherwise. *)
Definition update_key (span : ConfigFile) (item : string * string)
  : ConfigFile :=
  let (key, value) := item in
  match replace_key key value span with
  | Some span' => span'
  | None => span ++ [key_line key value]
  end.

(** Modelled from the spec: the loop of the missing writer over the keys
    of the profile (section 4.2, step 3). *)
Definition update_span (entries : list (string * string)) (span : ConfigFile)
  : ConfigFile :=
  fold_left update_key entries span.

(** Modelled from the spec: the blank line the missing writer puts
    before a new section (section 4.2, step 4), when the file is not
    empty and does not end with a blank line. *)
Definition separator (file : ConfigFile) : ConfigFile :=
  match rev file with
  | [] => []
  | l :: _ => if blank l then [] else [EmptyString]
  end.

(** Modelled from the spec: the section the missing writer appends when
    the file has none of that name (section 4.2, step 4): the header
    line, then one line per key in the order of the profile. *)
Definition new_section (name : string) (entries : list (string * string))
  : ConfigFile :=
  section_header name :: map (fun item => key_line (fst item) (snd item)) entries.

(** Modelled from the spec: the merge of the missing writer (section
    4.2, steps 2 to 4) for a section name and the key/value pairs of a
    profile, from the content read to the content written back. *)
Definition merge (name : string) (entries : list (string * string))
    (file : ConfigFile) : ConfigFile :=
  match find_section name file with
  | Some (pre, h, post) =>
      let (span, rest) := span_of post in
      pre ++ h :: update_span entries span ++ rest
  | None => file ++ separator file ++ new_section name entries
  end.

(** Modelled from the spec: [ConfigFileWriter.update_config] (writer.py,
    not among the sources) as the [updateSection] of section 4.2. *)
Definition updateSection (profile : ConfigProfile) (file : ConfigFile)
  : ConfigFile :=
  merge (sectionName profile) (items profile) file.

(** *** Vocabulary of the statements about the merge *)

(** A key that is read back from its own line: trimmed, not empty,
    without [=], and not opening with a bracket or a [#]. *)
Definition key_token (key : string) : bool :=
  match cut "=" key with Some _ => false | None => true end
  && String.eqb (Py.strip key) key
  && match first_char key with
     | Some c => negb (Ascii.eqb c "["%char || Ascii.eqb c "#"%char)
     | None => false
     end.

Definition keys (entries : list (string * string)) : list string :=
  map fst entries.

Definition entry_line (item : string * string) : string :=
  key_line (fst item) (snd item).

(** A line of the span after the merge: the same line, or the line of a
    key of the profile with the text after its [=] replaced. *)
Definition edited (entries : list (string * string)) (l l' : string) : Prop :=
  l' = l
  \/ exists k v t, In (k, v) entries /\ line_key l = Some k
                   /\ l = (key_prefix l ++ t)%string
                   /\ l' = (key_prefix l ++ " " ++ v)%string.

(** The pairs of the profile whose key has no line in the span. *)
Definition missing (entries : list (string * string)) (span : ConfigFile)
  : list (string * string) :=
  filter (fun item => negb (existsb (has_key (fst item)) span)) entries.

(** What follows a span: nothing, or lines that begin with a header. *)
Definition starts_with_header (rest : ConfigFile) : Prop :=
  match rest with
  | [] => True
  | r :: _ => is_header r = true
  end.

End ConfigMergeWriter.

(** [CredentialImporter.import_credential], on the content of the
    credentials file. *)
Definition import_credential (credential : Credential)
    (credentials_file : ConfigFile) : ConfigFile :=
  let '(name, akid, sak) := credential in
  let config_profile :=
    {| sectionName := name;
       aws_access_key_id := akid;
       aws_secret_access_key := sak |} in
  ConfigMergeWriter.updateSection config_profile credentials_file.

(** ** ConfigureImportCommand *)

(** What a run of the command reads and writes: its parser object, the
    content of the file at the config path and the output stream. *)
Record World : Type := {
  _csv_parser : CSVCredentialParser;
  credentials_file : ConfigFile;
  _out_stream : list string
}.

Definition import_msg (n : nat) : string :=
  "Successfully imported " ++ Py.str_of_nat n ++ " profile(s)" ++ Py.nl.

Definition _import_csv (w : World) (contents : string)
  : result unit * World :=
  match parse_credentials (_csv_parser w) contents with
  | inl e => (inl e, w)
  | inr credentials =>
      let file :=
        fold_left (fun f credential => import_credential credential f)
                  credentials (credentials_file w) in
      (inr tt,
       {| _csv_parser := _csv_parser w;
          credentials_file := file;
          _out_stream := _out_stream w ++ [import_msg (length credentials)] |})
  end.

(** [_run_main], with [parsed_args.skip_invalid] and [parsed_args.csv]. *)
Definition _run_main (skip_invalid : bool) (csv : string) (w : World)
  : result unit * World :=
  let w' := {| _csv_parser := {| strict := negb skip_invalid |};
               credentials_file := credentials_file w;
               _out_stream := _out_stream w |} in
  _import_csv w' csv.

(** Sample inputs. *)

Definition file_two_sections : ConfigFile :=
  ["# my credentials";
   "[default]";
   "aws_access_key_id = OLD";
   "# rotated";
   "aws_secret_access_key=OLDSECRET";
   EmptyString;
   "[other]";
   "aws_access_key_id = KEEP";
   "region = us-east-1"].

Definition profile_default : ConfigProfile :=
  {| sectionName := "default";
     aws_access_key_id := "AKIA1";
     aws_secret_access_key := "SECRET1" |}.

Definition file_only_key : ConfigFile :=
  ["[dev]"; "    aws_access_key_id =OLD"; "[other]"; "x = 1"].

Definition header_plain : string := "User Name,Access Key ID,Secret Access key".
Definition header_spaced : string :=
  "user name, ACCESS KEY ID , Secret Access key".
Definition header_console : string :=
  "Password,Secret Access Key,User name,Console login link,Access key ID".
Definition header_no_secret : string := "User Name,Password,Access Key ID".

Definition csv_alice : string :=
  header_plain ++ Py.nl ++ "alice,AKIA1,SECRET1" ++ Py.nl
  ++ ",AKIA2,SECRET2" ++ Py.nl.

Definition csv_two_users : string :=
  header_console ++ Py.nl
  ++ "pw, SECRET1 , alice ,https://console.link,AKIA1" ++ Py.nl
  ++ ",SECRET2,bob,,AKIA2 ".

Definition csv_no_access : string :=
  header_plain ++ Py.nl ++ "carol,,".

Definition csv_no_key : string :=
  header_plain ++ Py.nl ++ "alice,AKIA1,SECRET1" ++ Py.nl ++ "dave,AKIA3, ".

Definition csv_short_row : string :=
  header_plain ++ Py.nl ++ "alice,AKIA1,SECRET1" ++ Py.nl ++ "erin,AKIA4".

Definition csv_no_secret : string :=
  header_no_secret ++ Py.nl ++ "alice,pw,AKIA1" ++ Py.nl ++ "x".

Definition csv_blank : string := " " ++ Py.nl ++ "  ".

Definition csv_header_only : string := header_plain ++ Py.nl.

Definition strict_parser : CSVCredentialParser := {| strict := true |}.
Definition lenient_parser : CSVCredentialParser := {| strict := false |}.

(** ** Vocabulary of the further statements about the parser *)

(** Some character of the string satisfies [p]. *)
Fixpoint has_char (p : ascii -> bool) (s : string) : bool :=
  match s with
  | EmptyString => false
  | String c s' => p c || has_char p s'
  end.

Definition is_comma (c : ascii) : bool := Ascii.eqb c ",".

(** The message of the row loop in strict mode for an incomplete triple
    at entry [k]: the user name is looked at first. *)
Definition invalid_row_message (c : Credential) (k : nat) : string :=
  if Py.is_empty (fst (fst c)) then _INVALID_USERNAME k
  else _INVALID_SECRET k.

(** The ways a parse can end, read off [_parse_csv]: a blank text; a
    first line that lacks a label; a data row without a field at one of
    the recorded columns; in strict mode, a first incomplete row; or the
    end of the rows. *)
Inductive outcome (self : CSVCredentialParser) (csv : string)
  : result (list Credential) -> Prop :=
| outcome_empty :
    blank csv = true ->
    outcome self csv (inl (CredentialParserError _EMPTY_CSV))
| outcome_header h rows label :
    blank csv = false ->
    Py.splitlines csv = h :: rows ->
    missing_label h = Some label ->
    outcome self csv (inl (CredentialParserError (_HEADER_NOT_FOUND label)))
| outcome_short_row h pre row post u a s :
    Py.splitlines csv = h :: pre ++ row :: post ->
    position _USERNAME_HEADER h = Some u ->
    position _AKID_HEADER h = Some a ->
    position _SAK_HEADER h = Some s ->
    Forall (passes self u a s) pre ->
    fields u a s row = None ->
    outcome self csv (inl IndexError)
| outcome_invalid_row h pre row post u a s c :
    Py.splitlines csv = h :: pre ++ row :: post ->
    position _USERNAME_HEADER h = Some u ->
    position _AKID_HEADER h = Some a ->
    position _SAK_HEADER h = Some s ->
    Forall (passes self u a s) pre ->
    fields u a s row = Some c ->
    complete c = false ->
    strict self = true ->
    outcome self csv
      (inl (CredentialParserError
              (invalid_row_message c (length pre + 1))))
| outcome_return h rows u a s :
    Py.splitlines csv = h :: rows ->
    position _USERNAME_HEADER h = Some u ->
    position _AKID_HEADER h = Some a ->
    position _SAK_HEADER h = Some s ->
    Forall (passes self u a s) rows ->
    outcome self csv (inr (filter complete (triples u a s rows))).

(** A field as a credential holds it: not empty, trimmed, and free of
    commas and of line boundaries. *)
Definition clean (x : string) : Prop :=
  x <> EmptyString /\ Py.strip x = x
  /\ has_char is_comma x = false /\ has_char Py.is_linebreak x = false.

(** Column [i] is the leftmost column of the header row whose field
    equals the label once both are lower-cased and trimmed. *)
Definition leftmost (label header : string) (i : nat) : Prop :=
  (exists f, nth_error (Py.split "," header) i = Some f
             /\ _format_header f = _format_header label)
  /\ forall j f, j < i -> nth_error (Py.split "," header) j = Some f ->
                 _format_header f <> _format_header label.

(** The text with every LF replaced by CR LF. *)
Fixpoint crlf (s : string) : string :=
  match s with
  | EmptyString => EmptyString
  | String c s' =>
      if Ascii.eqb c Py.LF then String Py.CR (String Py.LF (crlf s'))
      else String c (crlf s')
  end.

Definition is_cr (c : ascii) : bool := Ascii.eqb c Py.CR.

(** More sample inputs. *)

Definition csv_leading_newline : string := Py.nl ++ csv_alice.

Definition rows_with_passwords : list string :=
  ["alice,pw1,AKIA1,SECRET1,https://console.link"; "bob,pw2,,SECRET2"].

Definition rows_without_passwords : list string :=
  ["alice,,AKIA1,SECRET1"; "bob,other,,SECRET2,more,columns"].

Definition csv_blank_line : string :=
  header_plain ++ Py.nl ++ "alice,AKIA1,SECRET1" ++ Py.nl ++ Py.nl
  ++ "bob,AKIA2,SECRET2".

Definition header_twice : string :=
  "User Name,Access Key ID,user name,Secret Access key".

(** ** Facts about the string operations *)

Section StringFacts.

Import Py.

Lemma string_ind2 (P : string -> Prop) :
  P EmptyString ->
  (forall c, P (String c EmptyString)) ->
  (forall c c' s, P s -> P (String c' s) -> P (String c (String c' s))) ->
  forall s, P s.
Proof.
  intros H0 H1 H2.
  assert (both : forall s, P s /\ forall c, P (String c s)).
  { induction s as [|c' s [IHs IHcs]].
    - split; [exact H0 | exact H1].
    - split; [apply IHcs | intro c; apply H2; [exact IHs | apply IHcs]]. }
  intro s. apply both.
Qed.

Lemma isspace_lower_char c : isspace (lower_char c) = isspace c.
Proof. destruct c as [[] [] [] [] [] [] [] []]; reflexivity. Qed.

Lemma blank_lower s : blank (lower s) = blank s.
Proof.
  induction s as [|c s IH]; simpl; [reflexivity|].
  now rewrite isspace_lower_char, IH.
Qed.

Lemma blank_lstrip s : blank (lstrip s) = blank s.
Proof.
  induction s as [|c s IH]; simpl; [reflexivity|].
  destruct (isspace c) eqn:E; simpl; [exact IH | now rewrite E].
Qed.

Lemma rstrip_empty s : rstrip s = EmptyString <-> blank s = true.
Proof.
  induction s as [|c s IH]; simpl; [tauto|].
  destruct (rstrip s) eqn:E; destruct (isspace c); simpl;
    split; intro H; try discriminate; try reflexivity.
  all: try (now apply IH).
  all: apply IH in H; discriminate.
Qed.

Lemma strip_empty s : strip s = EmptyString <-> blank s = true.
Proof. unfold strip. now rewrite rstrip_empty, blank_lstrip. Qed.

Lemma is_empty_strip s : is_empty (strip s) = blank s.
Proof.
  destruct (blank s) eqn:E.
  - apply strip_empty in E. now rewrite E.
  - destruct (strip s) eqn:F; [|reflexivity].
    apply strip_empty in F. congruence.
Qed.

Lemma is_empty_true s : is_empty s = true <-> s = EmptyString.
Proof. destruct s; simpl; split; congruence. Qed.

Lemma blank_app s t : blank (s ++ t) = blank s && blank t.
Proof.
  induction s as [|c s IH]; simpl; [reflexivity|].
  now rewrite IH, andb_assoc.
Qed.

Lemma blank_cons_first c l :
  isspace c = true -> Forall (fun f => blank f = true) l ->
  Forall (fun f => blank f = true) (cons_first c l).
Proof.
  intros Hc Hl. destruct l as [|f fs]; simpl.
  - constructor; [simpl; now rewrite Hc | constructor].
  - inversion Hl; subst. constructor; [simpl; now rewrite Hc | assumption].
Qed.

Lemma blank_split sep s :
  blank s = true -> Forall (fun f => blank f = true) (split sep s).
Proof.
  induction s as [|c s IH]; simpl; intro H.
  - repeat constructor.
  - apply andb_true_iff in H as [Hc Hs].
    destruct (Ascii.eqb c sep).
    + constructor; [reflexivity | auto].
    + apply blank_cons_first; auto.
Qed.

Lemma blank_splitlines s :
  blank s = true -> Forall (fun f => blank f = true) (splitlines s).
Proof.
  induction s as [| c | c c' s IHs IHcs] using string_ind2; intro H.
  - constructor.
  - simpl in *. destruct (is_linebreak c); repeat constructor.
    simpl. now rewrite andb_true_r in H |- *.
  - assert (Hc's : blank (String c' s) = true)
      by (simpl in H; apply andb_true_iff in H; tauto).
    assert (Hs : blank s = true)
      by (simpl in Hc's; apply andb_true_iff in Hc's; tauto).
    assert (Hc : isspace c = true)
      by (simpl in H; apply andb_true_iff in H; tauto).
    change (splitlines (String c (String c' s)))
      with (if is_linebreak c
            then if Ascii.eqb c CR && Ascii.eqb c' LF
                 then EmptyString :: splitlines s
                 else EmptyString :: splitlines (String c' s)
            else cons_first c (splitlines (String c' s))).
    destruct (is_linebreak c).
    + destruct (Ascii.eqb c CR && Ascii.eqb c' LF);
        constructor; auto.
    + apply blank_cons_first; auto.
Qed.

End StringFacts.

(** ** Facts about the two loops of the parser *)

Section ParserFacts.

Import Py.

Lemma contains_index x l : contains x l = false <-> index x l = None.
Proof.
  unfold contains. induction l as [|y l IH]; simpl; [tauto|].
  rewrite (String.eqb_sym x y). destruct (String.eqb y x); simpl.
  - split; discriminate.
  - destruct (index x l); split; intro H; try discriminate;
      try reflexivity; apply IH in H; first [discriminate | assumption].
Qed.

Lemma index_nth_error x l i : index x l = Some i -> nth_error l i = Some x.
Proof.
  revert i. induction l as [|y l IH]; simpl; intros i H; [discriminate|].
  destruct (String.eqb y x) eqn:E.
  - apply String.eqb_eq in E. inversion H; subst. reflexivity.
  - destruct (index x l) as [j|]; [|discriminate].
    inversion H; subst. simpl. now apply IH.
Qed.

Lemma index_In x l : index x l <> None <-> In x l.
Proof.
  induction l as [|y l IH]; simpl; [tauto|].
  destruct (String.eqb y x) eqn:E.
  - apply String.eqb_eq in E. split; [auto | discriminate].
  - apply String.eqb_neq in E.
    destruct (index x l); split; intro H; try discriminate; try tauto.
    all: try (right; apply IH; discriminate).
    all: destruct H as [H|H]; [contradiction | apply IH in H; contradiction].
Qed.

Lemma headers_loop_cons parsed label rest acc :
  headers_loop parsed (label :: rest) acc =
  match index (_format_header label) parsed with
  | None => raise (CredentialParserError (_HEADER_NOT_FOUND label))
  | Some i => headers_loop parsed rest (acc ++ [i])
  end.
Proof.
  simpl. destruct (index (_format_header label) parsed) eqn:E.
  - destruct (contains (_format_header label) parsed) eqn:C; [reflexivity|].
    apply contains_index in C. congruence.
  - apply contains_index in E. now rewrite E.
Qed.

Lemma _parse_csv_headers_spec h :
  _parse_csv_headers h =
  match position _USERNAME_HEADER h with
  | None => raise (CredentialParserError (_HEADER_NOT_FOUND _USERNAME_HEADER))
  | Some u =>
      match position _AKID_HEADER h with
      | None => raise (CredentialParserError (_HEADER_NOT_FOUND _AKID_HEADER))
      | Some a =>
          match position _SAK_HEADER h with
          | None =>
              raise (CredentialParserError (_HEADER_NOT_FOUND _SAK_HEADER))
          | Some s => ret [u; a; s]
          end
      end
  end.
Proof.
  unfold _parse_csv_headers, _EXPECTED_HEADERS, position.
  rewrite headers_loop_cons.
  destruct (index (_format_header _USERNAME_HEADER) _); [|reflexivity].
  rewrite headers_loop_cons.
  destruct (index (_format_header _AKID_HEADER) _); [|reflexivity].
  rewrite headers_loop_cons.
  destruct (index (_format_header _SAK_HEADER) _); reflexivity.
Qed.

(** One turn of the row loop. *)
Lemma rows_loop_cons self u a s row rest n acc :
  rows_loop self u a s (row :: rest) n acc =
  match fields u a s row with
  | None => raise IndexError
  | Some c =>
      if complete c then rows_loop self u a s rest (n + 1) (acc ++ [c])
      else if strict self then
        raise (CredentialParserError
                 (if is_empty (fst (fst c)) then _INVALID_USERNAME (n + 1)
                  else _INVALID_SECRET (n + 1)))
      else rows_loop self u a s rest (n + 1) acc
  end.
Proof.
  simpl. unfold fields, getitem.
  destruct (nth_error (split "," row) u) as [fu|]; [|reflexivity].
  destruct (nth_error (split "," row) a) as [fa|]; [|reflexivity].
  destruct (nth_error (split "," row) s) as [fs|]; [|reflexivity].
  simpl.
  destruct (is_empty (strip fu)); simpl; [reflexivity|].
  destruct (is_empty (strip fa)); simpl; [reflexivity|].
  destruct (is_empty (strip fs)); reflexivity.
Qed.

Lemma rows_loop_app self u a s pre rest n acc :
  Forall (passes self u a s) pre ->
  rows_loop self u a s (pre ++ rest) n acc =
  rows_loop self u a s rest (n + length pre)
    (acc ++ filter complete (triples u a s pre)).
Proof.
  intro H. revert n acc.
  induction H as [|row pre [c [Hc Hok]] _ IH]; intros n acc.
  - simpl. now rewrite Nat.add_0_r, app_nil_r.
  - rewrite <- app_comm_cons, rows_loop_cons. unfold triples. simpl.
    fold (triples u a s pre). rewrite Hc. simpl.
    replace (n + S (length pre)) with (n + 1 + length pre) by lia.
    destruct (complete c) eqn:E.
    + rewrite IH, <- app_assoc. reflexivity.
    + destruct Hok as [Hok|Hok]; [discriminate|]. rewrite Hok. apply IH.
Qed.

(** An exception of the row loop stays when more rows follow. *)
Lemma rows_loop_raise_app self u a s rows more n acc e :
  rows_loop self u a s rows n acc = inl e ->
  rows_loop self u a s (rows ++ more) n acc = inl e.
Proof.
  revert n acc. induction rows as [|row rows IH]; intros n acc H.
  - discriminate.
  - rewrite <- app_comm_cons. rewrite rows_loop_cons in *.
    destruct (fields u a s row) as [c|]; [|exact H].
    destruct (complete c); [now apply IH|].
    destruct (strict self); [exact H | now apply IH].
Qed.

Lemma rows_loop_return_app self u a s rows more n acc creds :
  rows_loop self u a s rows n acc = inr creds ->
  rows_loop self u a s (rows ++ more) n acc =
  rows_loop self u a s more (n + length rows) creds.
Proof.
  revert n acc. induction rows as [|row rows IH]; intros n acc H.
  - simpl in *. inversion H; subst. now rewrite Nat.add_0_r.
  - rewrite <- app_comm_cons. rewrite rows_loop_cons in *. simpl length.
    replace (n + S (length rows)) with (n + 1 + length rows) by lia.
    destruct (fields u a s row) as [c|]; [|discriminate].
    destruct (complete c); [now apply IH|].
    destruct (strict self); [discriminate | now apply IH].
Qed.

(** The exceptions the row loop can raise. *)
Lemma rows_loop_raises self u a s rows n acc e :
  rows_loop self u a s rows n acc = inl e ->
  e = IndexError
  \/ exists k, e = CredentialParserError (_INVALID_USERNAME k)
               \/ e = CredentialParserError (_INVALID_SECRET k).
Proof.
  revert n acc. induction rows as [|row rows IH]; intros n acc H.
  - discriminate.
  - rewrite rows_loop_cons in H.
    destruct (fields u a s row) as [c|].
    + destruct (complete c); [now apply IH in H|].
      destruct (strict self); [|now apply IH in H].
      inversion H; subst. right. exists (n + 1).
      destruct (is_empty (fst (fst c))); auto.
    + inversion H. now left.
Qed.

Lemma _parse_csv_lines self csv h rows :
  splitlines csv = h :: rows ->
  blank csv = false ->
  _parse_csv self csv =
  (parsed_headers <- _parse_csv_headers h ;;
   _parse_csv_rows self rows parsed_headers).
Proof.
  intros Hl Hb. unfold _parse_csv.
  rewrite is_empty_strip, Hb, Hl. reflexivity.
Qed.

Lemma _parse_csv_blank self csv :
  blank csv = true ->
  _parse_csv self csv = raise (CredentialParserError _EMPTY_CSV).
Proof. intro H. unfold _parse_csv. now rewrite is_empty_strip, H. Qed.

(** A header row that holds a required label is not blank, and
    neither is a text it is a line of. *)
Lemma position_not_blank label h i :
  In label _EXPECTED_HEADERS -> position label h = Some i -> blank h = false.
Proof.
  intros Hl Hp. destruct (blank h) eqn:B; [exfalso | reflexivity].
  apply index_nth_error, nth_error_In, in_map_iff in Hp.
  destruct Hp as [f [Hf Hin]].
  pose proof (blank_split "," h B) as HF.
  rewrite Forall_forall in HF. specialize (HF f Hin).
  assert (E : _format_header f = EmptyString).
  { unfold _format_header. apply strip_empty. now rewrite blank_lower. }
  rewrite E in Hf.
  destruct Hl as [<-|[<-|[<-|[]]]]; vm_compute in Hf; discriminate.
Qed.

Lemma line_not_blank csv h rows :
  splitlines csv = h :: rows -> blank h = false -> blank csv = false.
Proof.
  intros Hl Hb. destruct (blank csv) eqn:B; [exfalso | reflexivity].
  pose proof (blank_splitlines csv B) as HF. rewrite Hl in HF.
  inversion HF; subst. congruence.
Qed.

End ParserFacts.

(** ** The claims about the parser *)

Section ParserClaims.

Import Py.

Lemma complete_passes self u a s pre :
  Forall (fun r => exists c, fields u a s r = Some c /\ complete c = true) pre ->
  Forall (passes self u a s) pre.
Proof.
  apply Forall_impl. intros r [c [Hc Hk]]. exists c. auto.
Qed.

Lemma triples_Forall2 (P : Credential -> Prop) u a s rows cs :
  Forall2 (fun row c => fields u a s row = Some c /\ P c) rows cs ->
  triples u a s rows = cs.
Proof.
  induction 1 as [|row c rows cs [Hc _] _ IH]; [reflexivity|].
  unfold triples in *. simpl. now rewrite Hc, IH.
Qed.

Lemma Forall2_passes self u a s rows cs :
  Forall2 (fun row c => fields u a s row = Some c
                        /\ (complete c = true \/ strict self = false))
          rows cs ->
  Forall (passes self u a s) rows.
Proof.
  induction 1 as [|row c rows cs [Hc Hk] _ IH]; constructor; auto.
  exists c. auto.
Qed.

Lemma filter_complete_all cs :
  Forall (fun c => complete c = true) cs -> filter complete cs = cs.
Proof.
  induction 1 as [|c cs Hc _ IH]; simpl; [reflexivity|].
  now rewrite Hc, IH.
Qed.

(** With a header row that holds the three labels, parsing is the row
    loop at the recorded columns. *)
Lemma parse_credentials_rows self csv h rows u a s :
  splitlines csv = h :: rows ->
  position _USERNAME_HEADER h = Some u ->
  position _AKID_HEADER h = Some a ->
  position _SAK_HEADER h = Some s ->
  parse_credentials self csv = rows_loop self u a s rows 0 [].
Proof.
  intros Hl Hu Ha Hs. unfold parse_credentials.
  rewrite (_parse_csv_lines self csv h rows Hl).
  - rewrite _parse_csv_headers_spec, Hu, Ha, Hs. reflexivity.
  - apply (line_not_blank csv h rows Hl).
    apply (position_not_blank _USERNAME_HEADER h u); simpl; auto.
Qed.

(** C1. When the first line holds the three required labels and every
    data row has non-empty trimmed fields at the recorded columns,
    [parse_credentials] returns the trimmed triples of the rows, in the
    order of the rows (in strict and in lenient mode alike). *)
Theorem parse_credentials_valid_rows self csv h rows u a s creds :
  splitlines csv = h :: rows ->
  position _USERNAME_HEADER h = Some u ->
  position _AKID_HEADER h = Some a ->
  position _SAK_HEADER h = Some s ->
  Forall2 (fun row c => fields u a s row = Some c /\ complete c = true)
          rows creds ->
  parse_credentials self csv = inr creds.
Proof.
  intros Hl Hu Ha Hs Hrows.
  rewrite (parse_credentials_rows self csv h rows u a s Hl Hu Ha Hs).
  rewrite <- (app_nil_r rows), rows_loop_app.
  - simpl. rewrite (triples_Forall2 _ u a s rows creds Hrows).
    unfold ret. f_equal. apply filter_complete_all.
    clear -Hrows. induction Hrows as [|? ? ? ? [_ ?]]; constructor; auto.
  - apply Forall2_passes with (cs := creds).
    eapply Forall2_impl; [|exact Hrows]. simpl. intros ? ? [? ?]. auto.
Qed.

Lemma parse_credentials_valid_rows_witness :
  parse_credentials strict_parser csv_two_users
  = inr [("alice", "AKIA1", "SECRET1"); ("bob", "AKIA2", "SECRET2")].
Proof.
  apply (parse_credentials_valid_rows strict_parser csv_two_users
           header_console
           ["pw, SECRET1 , alice ,https://console.link,AKIA1";
            ",SECRET2,bob,,AKIA2 "] 2 4 1).
  - reflexivity.
  - reflexivity.
  - reflexivity.
  - reflexivity.
  - repeat constructor.
Defined.

(** C2. In strict mode, at the first data row that is not complete
    (every row before it is), parsing raises: the user-name message with
    the 1-based number of the row when the trimmed user name is empty,
    whatever the two keys are; the secret message with that number when
    the user name is not empty and one of the keys is.  No list is
    returned. *)
Theorem strict_invalid_row_aborts
    self csv h pre row post u a s username akid sak :
  strict self = true ->
  splitlines csv = h :: pre ++ row :: post ->
  position _USERNAME_HEADER h = Some u ->
  position _AKID_HEADER h = Some a ->
  position _SAK_HEADER h = Some s ->
  Forall (fun r => exists c, fields u a s r = Some c /\ complete c = true)
         pre ->
  fields u a s row = Some (username, akid, sak) ->
  (username = EmptyString ->
   parse_credentials self csv
   = inl (CredentialParserError (_INVALID_USERNAME (length pre + 1))))
  /\ (username <> EmptyString ->
      akid = EmptyString \/ sak = EmptyString ->
      parse_credentials self csv
      = inl (CredentialParserError (_INVALID_SECRET (length pre + 1)))).
Proof.
  intros Hstrict Hl Hu Ha Hs Hpre Hrow.
  rewrite (parse_credentials_rows self csv h _ u a s Hl Hu Ha Hs).
  rewrite rows_loop_app by (now apply complete_passes).
  rewrite rows_loop_cons, Hrow, Hstrict. simpl fst. rewrite Nat.add_0_l.
  split.
  - intros ->. reflexivity.
  - intros Hn Hk. destruct username as [|c username]; [congruence|].
    destruct Hk as [-> | ->]; simpl.
    + reflexivity.
    + destruct akid; reflexivity.
Qed.

Lemma strict_invalid_row_aborts_witness :
  parse_credentials strict_parser csv_alice
  = inl (CredentialParserError (_INVALID_USERNAME 2))
  /\ parse_credentials strict_parser csv_no_key
     = inl (CredentialParserError (_INVALID_SECRET 2)).
Proof.
  split.
  - apply (strict_invalid_row_aborts strict_parser csv_alice header_plain
             ["alice,AKIA1,SECRET1"] ",AKIA2,SECRET2" [] 0 1 2
             EmptyString "AKIA2" "SECRET2");
      try reflexivity.
    repeat constructor. exists ("alice", "AKIA1", "SECRET1"). split; reflexivity.
  - apply (strict_invalid_row_aborts strict_parser csv_no_key header_plain
             ["alice,AKIA1,SECRET1"] "dave,AKIA3, " [] 0 1 2
             "dave" "AKIA3" EmptyString);
      try reflexivity.
    + repeat constructor.
      exists ("alice", "AKIA1", "SECRET1"). split; reflexivity.
    + discriminate.
    + right. reflexivity.
Defined.

(** C3. In lenient mode, when every data row has a field at each of the
    three recorded columns, parsing returns the trimmed triples of exactly
    the complete rows, in the order of the rows, and raises nothing; the
    list is empty when no row is complete.  On the CSV of the
    specification, strict mode raises the user-name message for entry 2
    and lenient mode returns the single credential of alice. *)
Theorem lenient_skips_incomplete_rows :
  (forall self csv h rows u a s cs,
      strict self = false ->
      splitlines csv = h :: rows ->
      position _USERNAME_HEADER h = Some u ->
      position _AKID_HEADER h = Some a ->
      position _SAK_HEADER h = Some s ->
      Forall2 (fun row c => fields u a s row = Some c) rows cs ->
      parse_credentials self csv = inr (filter complete cs))
  /\ parse_credentials strict_parser csv_alice
     = inl (CredentialParserError (_INVALID_USERNAME 2))
  /\ parse_credentials lenient_parser csv_alice
     = inr [("alice", "AKIA1", "SECRET1")]
  /\ parse_credentials lenient_parser csv_no_access = inr [].
Proof.
  split; [|repeat split; reflexivity].
  intros self csv h rows u a s cs Hstrict Hl Hu Ha Hs Hrows.
  rewrite (parse_credentials_rows self csv h _ u a s Hl Hu Ha Hs).
  rewrite <- (app_nil_r rows), rows_loop_app.
  - simpl. unfold ret. do 2 f_equal.
    apply (triples_Forall2 (fun _ => True)).
    eapply Forall2_impl; [|exact Hrows]. simpl. auto.
  - apply Forall2_passes with (cs := cs).
    eapply Forall2_impl; [|exact Hrows]. simpl. auto.
Qed.

Lemma lenient_skips_incomplete_rows_witness :
  parse_credentials lenient_parser csv_no_key
  = inr [("alice", "AKIA1", "SECRET1")].
Proof.
  apply (proj1 lenient_skips_incomplete_rows lenient_parser csv_no_key
           header_plain ["alice,AKIA1,SECRET1"; "dave,AKIA3, "] 0 1 2
           [("alice", "AKIA1", "SECRET1"); ("dave", "AKIA3", EmptyString)]).
  - reflexivity.
  - reflexivity.
  - reflexivity.
  - reflexivity.
  - reflexivity.
  - repeat constructor.
Defined.

(** The three kinds of message differ in their first character. *)
Lemma row_exn_not_header e label :
  e = IndexError
  \/ (exists k, e = CredentialParserError (_INVALID_USERNAME k)
                \/ e = CredentialParserError (_INVALID_SECRET k)) ->
  e <> CredentialParserError (_HEADER_NOT_FOUND label).
Proof.
  intros [->|[k [->| ->]]]; discriminate.
Qed.

Lemma row_exn_not_empty e :
  e = IndexError
  \/ (exists k, e = CredentialParserError (_INVALID_USERNAME k)
                \/ e = CredentialParserError (_INVALID_SECRET k)) ->
  e <> CredentialParserError _EMPTY_CSV.
Proof.
  intros [->|[k [->| ->]]]; discriminate.
Qed.

Lemma missing_label_spec h :
  match missing_label h with
  | Some label => In label _EXPECTED_HEADERS /\ position label h = None
  | None => forall label, In label _EXPECTED_HEADERS ->
                          position label h <> None
  end.
Proof.
  unfold missing_label, _EXPECTED_HEADERS. simpl.
  destruct (position _USERNAME_HEADER h) eqn:Hu; [|simpl; auto].
  destruct (position _AKID_HEADER h) eqn:Ha; [|simpl; auto].
  destruct (position _SAK_HEADER h) eqn:Hs; [|simpl; auto].
  intros label [<-|[<-|[<-|[]]]]; congruence.
Qed.

Lemma _parse_csv_headers_missing h :
  _parse_csv_headers h =
  match missing_label h with
  | Some label => raise (CredentialParserError (_HEADER_NOT_FOUND label))
  | None =>
      match position _USERNAME_HEADER h, position _AKID_HEADER h,
            position _SAK_HEADER h with
      | Some u, Some a, Some s => ret [u; a; s]
      | _, _, _ => raise ValueError
      end
  end.
Proof.
  rewrite _parse_csv_headers_spec.
  unfold missing_label, _EXPECTED_HEADERS. simpl.
  destruct (position _USERNAME_HEADER h); [|reflexivity].
  destruct (position _AKID_HEADER h); [|reflexivity].
  destruct (position _SAK_HEADER h); reflexivity.
Qed.

(** C4. A required label has a column exactly when some comma-separated
    field of the first line equals it after lower-casing and trimming
    both; the header stage succeeds with the three first columns when
    every label has one, wherever the columns are and whatever other
    columns there are; it raises the header-not-found message, naming the
    first label without a column, exactly when some label has none; and
    on a non-blank text the whole parse raises that message in exactly
    that case, whatever the data rows are. *)
Theorem header_recognition :
  (forall label h,
      position label h <> None
      <-> exists f, In f (split "," h)
                    /\ strip (lower f) = strip (lower label))
  /\ (forall h,
        missing_label h <> None
        <-> exists label, In label _EXPECTED_HEADERS
                          /\ position label h = None)
  /\ (forall h,
        match missing_label h with
        | Some label =>
            _parse_csv_headers h
            = inl (CredentialParserError (_HEADER_NOT_FOUND label))
        | None =>
            exists u a s,
              position _USERNAME_HEADER h = Some u
              /\ position _AKID_HEADER h = Some a
              /\ position _SAK_HEADER h = Some s
              /\ _parse_csv_headers h = inr [u; a; s]
        end)
  /\ (forall self csv h rows,
        splitlines csv = h :: rows ->
        blank csv = false ->
        match missing_label h with
        | Some label =>
            parse_credentials self csv
            = inl (CredentialParserError (_HEADER_NOT_FOUND label))
        | None =>
            forall label,
              parse_credentials self csv
              <> inl (CredentialParserError (_HEADER_NOT_FOUND label))
        end)
  /\ _parse_csv_headers header_spaced = inr [0; 1; 2]
  /\ _parse_csv_headers header_console = inr [2; 4; 1]
  /\ _parse_csv_headers header_no_secret
     = inl (CredentialParserError (_HEADER_NOT_FOUND _SAK_HEADER)).
Proof.
  split; [|split; [|split; [|split; [|repeat split; reflexivity]]]].
  - intros label h. unfold position. rewrite index_In, in_map_iff.
    unfold _format_header. split; intros [f [H1 H2]]; exists f; auto.
  - intro h. pose proof (missing_label_spec h) as M.
    destruct (missing_label h) as [label|].
    + split; [intros _; exists label; exact M | discriminate].
    + split; [congruence | intros [label [Hin Hp]]].
      exfalso. exact (M label Hin Hp).
  - intro h. rewrite _parse_csv_headers_missing.
    pose proof (missing_label_spec h) as M.
    destruct (missing_label h) as [label|]; [reflexivity|].
    destruct (position _USERNAME_HEADER h) as [u|] eqn:Hu;
      [|exfalso; apply (M _USERNAME_HEADER); simpl; auto].
    destruct (position _AKID_HEADER h) as [a|] eqn:Ha;
      [|exfalso; apply (M _AKID_HEADER); simpl; auto].
    destruct (position _SAK_HEADER h) as [s|] eqn:Hs;
      [|exfalso; apply (M _SAK_HEADER); simpl; auto].
    exists u, a, s. auto.
  - intros self csv h rows Hl Hb. unfold parse_credentials.
    rewrite (_parse_csv_lines self csv h rows Hl Hb).
    rewrite _parse_csv_headers_missing.
    pose proof (missing_label_spec h) as M.
    destruct (missing_label h) as [label|]; [reflexivity|].
    intros label.
    destruct (position _USERNAME_HEADER h) as [u|];
      [|discriminate].
    destruct (position _AKID_HEADER h) as [a|]; [|discriminate].
    destruct (position _SAK_HEADER h) as [s|]; [|discriminate].
    simpl. destruct (rows_loop self u a s rows 0 []) as [e|creds] eqn:E;
      [|discriminate].
    apply rows_loop_raises in E. intro H. inversion H as [H'].
    revert H'. fold (e <> CredentialParserError (_HEADER_NOT_FOUND label)).
    now apply row_exn_not_header.
Qed.

Lemma header_recognition_witness :
  parse_credentials strict_parser csv_no_secret
  = inl (CredentialParserError (_HEADER_NOT_FOUND _SAK_HEADER)).
Proof.
  apply (proj1 (proj2 (proj2 (proj2 header_recognition))) strict_parser
           csv_no_secret header_no_secret ["alice,pw,AKIA1"; "x"]).
  - reflexivity.
  - reflexivity.
Defined.

(** C7. Parsing raises the empty-input message exactly when the text is
    empty or made of whitespace only, which is when its trimmed form is
    empty. *)
Theorem empty_input_iff self csv :
  (parse_credentials self csv = inl (CredentialParserError _EMPTY_CSV)
   <-> blank csv = true)
  /\ (blank csv = true <-> strip csv = EmptyString).
Proof.
  split; [|symmetry; apply strip_empty].
  split; [|apply _parse_csv_blank].
  intro H. destruct (blank csv) eqn:B; [reflexivity | exfalso].
  unfold parse_credentials in H.
  destruct (splitlines csv) as [|h rows] eqn:Hl.
  - unfold _parse_csv in H. rewrite is_empty_strip, B, Hl in H. discriminate.
  - rewrite (_parse_csv_lines self csv h rows Hl B) in H.
    rewrite _parse_csv_headers_spec in H.
    destruct (position _USERNAME_HEADER h) as [u|]; [|discriminate].
    destruct (position _AKID_HEADER h) as [a|]; [|discriminate].
    destruct (position _SAK_HEADER h) as [s|]; [|discriminate].
    simpl in H.
    destruct (rows_loop self u a s rows 0 []) as [e|creds] eqn:E;
      [|discriminate].
    apply rows_loop_raises in E. inversion H as [H'].
    revert H'. fold (e <> CredentialParserError _EMPTY_CSV).
    now apply row_exn_not_empty.
Qed.

Lemma empty_input_iff_witness :
  parse_credentials strict_parser csv_blank
  = inl (CredentialParserError _EMPTY_CSV).
Proof.
  apply (proj2 (proj1 (empty_input_iff strict_parser csv_blank))).
  reflexivity.
Defined.

(** C10. A data row with fewer comma-separated fields than the largest
    recorded column plus one, reached without an earlier exception,
    makes parsing raise [IndexError], in strict and in lenient mode: the
    row is not skipped and no [CredentialParserError] is raised. *)
Theorem short_row_raises_IndexError self csv h pre row post u a s :
  splitlines csv = h :: pre ++ row :: post ->
  position _USERNAME_HEADER h = Some u ->
  position _AKID_HEADER h = Some a ->
  position _SAK_HEADER h = Some s ->
  Forall (passes self u a s) pre ->
  length (split "," row) < Nat.max u (Nat.max a s) + 1 ->
  parse_credentials self csv = inl IndexError.
Proof.
  intros Hl Hu Ha Hs Hpre Hshort.
  rewrite (parse_credentials_rows self csv h _ u a s Hl Hu Ha Hs).
  rewrite rows_loop_app by assumption.
  rewrite rows_loop_cons.
  assert (F : fields u a s row = None).
  { unfold fields.
    destruct (nth_error (split "," row) u) eqn:Eu; [|reflexivity].
    destruct (nth_error (split "," row) a) eqn:Ea; [|reflexivity].
    destruct (nth_error (split "," row) s) eqn:Es; [|reflexivity].
    assert (u < length (split "," row))
      by (apply nth_error_Some; congruence).
    assert (a < length (split "," row))
      by (apply nth_error_Some; congruence).
    assert (s < length (split "," row))
      by (apply nth_error_Some; congruence).
    lia. }
  now rewrite F.
Qed.

Lemma short_row_raises_IndexError_witness :
  parse_credentials strict_parser csv_short_row = inl IndexError
  /\ parse_credentials lenient_parser csv_short_row = inl IndexError.
Proof.
  split.
  - apply (short_row_raises_IndexError strict_parser csv_short_row
             header_plain ["alice,AKIA1,SECRET1"] "erin,AKIA4" [] 0 1 2);
      try reflexivity.
    + repeat constructor. exists ("alice", "AKIA1", "SECRET1").
      split; [reflexivity | left; reflexivity].
    + simpl. lia.
  - apply (short_row_raises_IndexError lenient_parser csv_short_row
             header_plain ["alice,AKIA1,SECRET1"] "erin,AKIA4" [] 0 1 2);
      try reflexivity.
    + repeat constructor. exists ("alice", "AKIA1", "SECRET1").
      split; [reflexivity | left; reflexivity].
    + simpl. lia.
Defined.

(** *** A newline appended to the text *)

Lemma splitlines_cons2 c c' s :
  splitlines (String c (String c' s)) =
  if is_linebreak c
  then if Ascii.eqb c CR && Ascii.eqb c' LF
       then EmptyString :: splitlines s
       else EmptyString :: splitlines (String c' s)
  else cons_first c (splitlines (String c' s)).
Proof. reflexivity. Qed.

Lemma splitlines_not_nil c s : splitlines (String c s) <> [].
Proof.
  revert c. induction s as [|c' s IH]; intro c.
  - simpl. destruct (is_linebreak c); discriminate.
  - rewrite splitlines_cons2. destruct (is_linebreak c).
    + destruct (Ascii.eqb c CR && Ascii.eqb c' LF); discriminate.
    + specialize (IH c'). destruct (splitlines (String c' s));
        [contradiction | discriminate].
Qed.

Lemma cons_first_app c l m :
  l <> [] -> cons_first c (l ++ m) = cons_first c l ++ m.
Proof. destruct l; [contradiction | reflexivity]. Qed.

Lemma splitlines_app_nl s :
  s <> EmptyString ->
  splitlines (s ++ nl) =
  if ends_with_break s then splitlines s ++ [EmptyString] else splitlines s.
Proof.
  induction s as [| c | c c' s IHs IHcs] using string_ind2; intros Hne.
  - congruence.
  - simpl. destruct (is_linebreak c) eqn:L; simpl; [|reflexivity].
    destruct (Ascii.eqb c CR) eqn:E; reflexivity.
  - change ((String c (String c' s) ++ nl)%string)
      with (String c (String c' (s ++ nl))).
    rewrite !splitlines_cons2.
    change (ends_with_break (String c (String c' s)))
      with (ends_with_break (String c' s)).
    change (String c' (s ++ nl)) with ((String c' s ++ nl)%string).
    rewrite IHcs by discriminate.
    destruct (is_linebreak c).
    + destruct (Ascii.eqb c CR && Ascii.eqb c' LF) eqn:E.
      * destruct s as [|c'' s].
        -- apply andb_true_iff in E as [_ E]. apply Ascii.eqb_eq in E.
           subst c'. reflexivity.
        -- rewrite IHs by discriminate.
           change (ends_with_break (String c' (String c'' s)))
             with (ends_with_break (String c'' s)).
           destruct (ends_with_break (String c'' s)); reflexivity.
      * destruct (ends_with_break (String c' s)); reflexivity.
    + destruct (ends_with_break (String c' s)); [|reflexivity].
      apply cons_first_app, splitlines_not_nil.
Qed.

Lemma blank_app_nl s : blank (s ++ nl) = blank s.
Proof. rewrite blank_app. simpl. apply andb_true_r. Qed.

Lemma fields_of_empty_row h u a s :
  position _USERNAME_HEADER h = Some u ->
  position _AKID_HEADER h = Some a ->
  fields u a s EmptyString = None.
Proof.
  intros Hu Ha. unfold fields. simpl.
  destruct u as [|u]; [|now destruct u].
  destruct a as [|a]; [|now destruct a].
  apply index_nth_error in Hu, Ha. rewrite Hu in Ha. discriminate.
Qed.

(** C8, as amended.  A newline appended to a text that is blank, or that
    does not end in a line boundary other than CR, leaves the result of
    parsing unchanged.  Appended to a non-blank text that ends in such a
    boundary, it adds one empty data row: an exception of the parse
    stays, and a parse that returned now raises [IndexError]. *)
Theorem trailing_newline self csv :
  (blank csv = true \/ ends_with_break csv = false ->
   parse_credentials self (csv ++ nl) = parse_credentials self csv)
  /\ (blank csv = false -> ends_with_break csv = true ->
      parse_credentials self (csv ++ nl) =
      match parse_credentials self csv with
      | inl e => inl e
      | inr _ => inl IndexError
      end).
Proof.
  unfold parse_credentials. split.
  - intros [B|E].
    + rewrite !_parse_csv_blank; [reflexivity | assumption |].
      now rewrite blank_app_nl.
    + destruct (blank csv) eqn:B.
      * rewrite !_parse_csv_blank; [reflexivity | assumption |].
        now rewrite blank_app_nl.
      * unfold _parse_csv. rewrite !is_empty_strip, blank_app_nl, B.
        rewrite splitlines_app_nl, E; [reflexivity|].
        intros ->. discriminate.
  - intros B E.
    assert (Hne : csv <> EmptyString) by (intros ->; discriminate).
    destruct (splitlines csv) as [|h rows] eqn:Hl.
    { destruct csv; [contradiction|]. now apply splitlines_not_nil in Hl. }
    rewrite (_parse_csv_lines self csv h rows Hl B).
    rewrite (_parse_csv_lines self (csv ++ nl) h (rows ++ [EmptyString])).
    + rewrite _parse_csv_headers_spec.
      destruct (position _USERNAME_HEADER h) as [u|] eqn:Hu; [|reflexivity].
      destruct (position _AKID_HEADER h) as [a|] eqn:Ha; [|reflexivity].
      destruct (position _SAK_HEADER h) as [s|] eqn:Hs; [|reflexivity].
      simpl.
      destruct (rows_loop self u a s rows 0 []) as [e|creds] eqn:R.
      * now apply rows_loop_raise_app.
      * rewrite (rows_loop_return_app self u a s rows _ 0 [] creds R).
        rewrite rows_loop_cons.
        now rewrite (fields_of_empty_row h u a s Hu Ha).
    + rewrite splitlines_app_nl, E, Hl by assumption. reflexivity.
    + now rewrite blank_app_nl.
Qed.

Lemma trailing_newline_witness :
  parse_credentials strict_parser (csv_short_row ++ nl)
  = parse_credentials strict_parser csv_short_row
  /\ parse_credentials lenient_parser (csv_header_only ++ nl)
     = match parse_credentials lenient_parser csv_header_only with
       | inl e => inl e
       | inr _ => inl IndexError
       end.
Proof.
  split.
  - apply (proj1 (trailing_newline strict_parser csv_short_row)).
    right. reflexivity.
  - apply (proj2 (trailing_newline lenient_parser csv_header_only));
      reflexivity.
Defined.

(** C8, as stated, fails: the text made of the header line and its
    newline parses to the empty list, and with one more newline parsing
    raises [IndexError]. *)
Lemma trailing_newline_counterexample :
  parse_credentials strict_parser csv_header_only = inr []
  /\ parse_credentials strict_parser (csv_header_only ++ nl) = inl IndexError
  /\ parse_credentials strict_parser (csv_header_only ++ nl)
     <> parse_credentials strict_parser csv_header_only.
Proof.
  split; [reflexivity | split; [reflexivity | discriminate]].
Qed.

End ParserClaims.


(** ** Facts about the lines of the config file *)

Section LineFacts.

Import Py ConfigMergeWriter.

Lemma append_assoc (s t r : string) : ((s ++ t) ++ r = s ++ (t ++ r))%string.
Proof. induction s as [|c s IH]; simpl; [reflexivity | now rewrite IH]. Qed.

Lemma first_char_nonspace l c : first_char l = Some c -> isspace c = false.
Proof.
  induction l as [|c' l IH]; simpl; [discriminate|].
  destruct (isspace c') eqn:E; [exact IH|].
  intro H. inversion H; subst. exact E.
Qed.

Lemma first_char_app l c t : first_char l = Some c -> first_char (l ++ t) = Some c.
Proof.
  induction l as [|c' l IH]; simpl; [discriminate|].
  destruct (isspace c'); auto.
Qed.

(** What follows a character that is not whitespace does not matter. *)
Lemma first_char_upto b c t t' :
  isspace c = false ->
  first_char (b ++ String c t) = first_char (b ++ String c t').
Proof.
  intro Hc. induction b as [|c' b IH]; simpl.
  - now rewrite Hc.
  - destruct (isspace c'); auto.
Qed.

Lemma rstrip_head c r :
  isspace c = false -> exists r', rstrip (String c r) = String c r'.
Proof.
  intro Hc. simpl. destruct (rstrip r).
  - rewrite Hc. eauto.
  - eauto.
Qed.

Lemma strip_first l c r : strip l = String c r -> first_char l = Some c.
Proof.
  unfold strip. induction l as [|c' l IH]; cbn [lstrip first_char];
    [discriminate|].
  destruct (isspace c') eqn:E; [exact IH|].
  intro H. destruct (rstrip_head c' l E) as [r' Hr].
  rewrite Hr in H. now inversion H.
Qed.

Lemma rstrip_app_blank s t : blank t = true -> rstrip (s ++ t) = rstrip s.
Proof.
  intro Ht. induction s as [|c s IH]; simpl.
  - now apply rstrip_empty.
  - now rewrite IH.
Qed.

Lemma rstrip_app_nonspace s c :
  isspace c = false ->
  rstrip (s ++ String c EmptyString) = (s ++ String c EmptyString)%string.
Proof.
  intro Hc. induction s as [|c' s IH]; simpl.
  - now rewrite Hc.
  - rewrite IH. destruct (s ++ String c EmptyString)%string eqn:E;
      [|reflexivity].
    destruct s; discriminate.
Qed.

Lemma cut_spec sep l b a :
  cut sep l = Some (b, a) ->
  l = (b ++ String sep a)%string /\ cut sep b = None.
Proof.
  revert b. induction l as [|c l IH]; simpl; intros b H; [discriminate|].
  destruct (Ascii.eqb c sep) eqn:E.
  - apply Ascii.eqb_eq in E. inversion H; subst. auto.
  - destruct (cut sep l) as [[b' a']|]; [|discriminate].
    inversion H; subst. destruct (IH b' eq_refl) as [-> Hb].
    simpl. now rewrite E, Hb.
Qed.

Lemma cut_app sep b a :
  cut sep b = None -> cut sep (b ++ String sep a) = Some (b, a).
Proof.
  induction b as [|c b IH]; simpl; intro H.
  - now rewrite Ascii.eqb_refl.
  - destruct (Ascii.eqb c sep); [discriminate|].
    destruct (cut sep b) as [[? ?]|]; [discriminate|].
    now rewrite IH.
Qed.

Lemma cut_none_app sep s t :
  cut sep s = None -> cut sep t = None -> cut sep (s ++ t) = None.
Proof.
  intros Hs Ht. induction s as [|c s IH]; simpl in *; [exact Ht|].
  destruct (Ascii.eqb c sep); [discriminate|].
  destruct (cut sep s) as [[? ?]|]; [discriminate|].
  now rewrite IH.
Qed.

Lemma chop_bracket_app n : chop_bracket (n ++ "]") = Some n.
Proof.
  induction n as [|c n IH]; [reflexivity|].
  change ((String c n ++ "]")%string) with (String c (n ++ "]")).
  destruct n as [|c' n].
  - reflexivity.
  - change ((String c' n ++ "]")%string) with (String c' (n ++ "]")) in *.
    change (chop_bracket (String c (String c' (n ++ "]"))))
      with (match chop_bracket (String c' (n ++ "]")) with
            | Some m => Some (String c m)
            | None => None
            end).
    now rewrite IH.
Qed.

(** The header line written for a name is read back as that name. *)
Lemma header_name_section_header name :
  header_name (section_header name) = Some name.
Proof.
  unfold header_name, section_header, strip.
  change (("[" ++ name ++ "]")%string) with (String "["%char (name ++ "]")).
  change (lstrip (String "["%char (name ++ "]")))
    with (String "["%char (name ++ "]")).
  change (String "["%char (name ++ "]"))
    with ((String "["%char name ++ String "]"%char EmptyString)%string).
  rewrite rstrip_app_nonspace by reflexivity.
  apply chop_bracket_app.
Qed.

Lemma header_name_first_char l n :
  header_name l = Some n -> first_char l = Some "["%char.
Proof.
  unfold header_name. destruct (strip l) as [|c r] eqn:E; [discriminate|].
  apply strip_first in E. intro H. rewrite E. f_equal.
  destruct c as [[] [] [] [] [] [] [] []]; try discriminate. reflexivity.
Qed.

(** A [key = value] line is not a header line. *)
Lemma line_key_not_header l k : line_key l = Some k -> is_header l = false.
Proof.
  unfold line_key, is_header. intro H.
  destruct (header_name l) as [n|] eqn:E; [|reflexivity].
  apply header_name_first_char in E. rewrite E in H. discriminate.
Qed.

Lemma has_key_line_key k l : has_key k l = true <-> line_key l = Some k.
Proof.
  unfold has_key. destruct (line_key l) as [k'|].
  - rewrite String.eqb_eq. split; congruence.
  - split; discriminate.
Qed.

Lemma has_key_other k k' l :
  line_key l = Some k' -> k <> k' -> has_key k l = false.
Proof.
  intros H Hne. destruct (has_key k l) eqn:E; [|reflexivity].
  apply has_key_line_key in E. congruence.
Qed.

Lemma line_key_cut l k :
  line_key l = Some k -> exists b a, cut "=" l = Some (b, a).
Proof.
  unfold line_key. destruct (first_char l) as [c|]; [|discriminate].
  destruct (_ || _); [discriminate|].
  destruct (cut "=" l) as [[b a]|]; [eauto | discriminate].
Qed.

(** The line keeps its key when its value is replaced. *)
Lemma line_key_set_value l k v :
  line_key l = Some k -> line_key (set_value l v) = Some k.
Proof.
  intro H. destruct (line_key_cut l k H) as [b [a Hc]].
  destruct (cut_spec "=" l b a Hc) as [Hl Hb].
  unfold set_value, key_prefix. rewrite Hc.
  unfold line_key in *. rewrite append_assoc.
  change (("=" ++ " " ++ v)%string) with (String "="%char (" " ++ v)).
  rewrite (first_char_upto b "=" (" " ++ v) a) by reflexivity.
  rewrite <- Hl. rewrite (cut_app "=" b _ Hb).
  rewrite Hc in H. exact H.
Qed.

Lemma key_prefix_set_value l k v :
  line_key l = Some k -> key_prefix (set_value l v) = key_prefix l.
Proof.
  intro H. destruct (line_key_cut l k H) as [b [a Hc]].
  destruct (cut_spec "=" l b a Hc) as [Hl Hb].
  unfold set_value, key_prefix. rewrite Hc, append_assoc.
  change (("=" ++ " " ++ v)%string) with (String "="%char (" " ++ v)).
  now rewrite (cut_app "=" b _ Hb).
Qed.

(** Replacing the value twice by the same value is replacing it once. *)
Lemma set_value_twice l k v :
  line_key l = Some k -> set_value (set_value l v) v = set_value l v.
Proof.
  intro H. unfold set_value at 1.
  now rewrite (key_prefix_set_value l k v H).
Qed.

(** The text before the value is a prefix of the line. *)
Lemma key_prefix_prefix l k :
  line_key l = Some k -> exists t, l = (key_prefix l ++ t)%string.
Proof.
  intro H. destruct (line_key_cut l k H) as [b [a Hc]].
  destruct (cut_spec "=" l b a Hc) as [Hl _].
  unfold key_prefix. rewrite Hc. exists a.
  now rewrite append_assoc.
Qed.

End LineFacts.

(** ** Facts about the merge *)

Section MergeFacts.

Import Py ConfigMergeWriter.

Lemma key_token_inv k :
  key_token k = true ->
  cut "=" k = None /\ rstrip k = k
  /\ exists c k', k = String c k' /\ isspace c = false
                  /\ (Ascii.eqb c "[" || Ascii.eqb c "#")%char = false.
Proof.
  unfold key_token. intro H.
  apply andb_true_iff in H as [H H3]. apply andb_true_iff in H as [H1 H2].
  apply String.eqb_eq in H2.
  destruct (cut "=" k); [discriminate|].
  destruct (first_char k) as [c|] eqn:F; [|discriminate].
  apply negb_true_iff in H3.
  destruct k as [|c0 k']; [discriminate|].
  pose proof (strip_first _ _ _ H2) as F'. rewrite F in F'.
  inversion F'; subst c0.
  pose proof (first_char_nonspace _ _ F) as Hc.
  split; [reflexivity|]. split.
  - unfold strip in H2. simpl in H2. rewrite Hc in H2. exact H2.
  - exists c, k'. auto.
Qed.

Lemma cut_indent k :
  cut "=" k = None -> cut "=" ("  " ++ k ++ " ") = None.
Proof.
  intro H. apply (cut_none_app "=" "  " (k ++ " ")); [reflexivity|].
  apply cut_none_app; [assumption | reflexivity].
Qed.

Lemma key_line_shape k v :
  key_line k v = (("  " ++ k ++ " ") ++ String "="%char (" " ++ v))%string.
Proof. unfold key_line. simpl. now rewrite append_assoc. Qed.

(** The line appended for a key is a line of that key. *)
Lemma line_key_key_line k v : key_token k = true -> line_key (key_line k v) = Some k.
Proof.
  intro H. destruct (key_token_inv k H) as [Hcut [Hr [c [k' [-> [Hc Hb]]]]]].
  unfold line_key.
  assert (F : first_char (key_line (String c k') v) = Some c).
  { unfold key_line. simpl. now rewrite Hc. }
  rewrite F, Hb, key_line_shape.
  rewrite cut_app.
  - f_equal. unfold strip. simpl lstrip. rewrite Hc.
    change (String c (k' ++ " ")) with ((String c k' ++ " ")%string).
    now rewrite rstrip_app_blank.
  - now apply cut_indent.
Qed.

Lemma set_value_key_line k v :
  key_token k = true -> set_value (key_line k v) v = key_line k v.
Proof.
  intro H. destruct (key_token_inv k H) as [Hcut _].
  unfold set_value, key_prefix. rewrite key_line_shape at 1.
  rewrite cut_app.
  - rewrite key_line_shape, append_assoc. reflexivity.
  - now apply cut_indent.
Qed.

Lemma update_key_skip k v l s :
  has_key k l = false -> update_key (l :: s) (k, v) = l :: update_key s (k, v).
Proof.
  intro H. unfold update_key. simpl. rewrite H.
  destruct (replace_key k v s); reflexivity.
Qed.

Lemma update_key_hit k v l s :
  has_key k l = true -> update_key (l :: s) (k, v) = set_value l v :: s.
Proof. intro H. unfold update_key. simpl. now rewrite H. Qed.

(** After the update of a key, a second update of it changes nothing. *)
Lemma replace_key_update_key k v s :
  key_token k = true ->
  replace_key k v (update_key s (k, v)) = Some (update_key s (k, v)).
Proof.
  intro Hk. induction s as [|l s IH].
  - unfold update_key. simpl.
    assert (L : has_key k (key_line k v) = true)
      by (apply has_key_line_key; now apply line_key_key_line).
    now rewrite L, set_value_key_line.
  - destruct (has_key k l) eqn:E.
    + rewrite update_key_hit by assumption. cbn [replace_key].
      apply has_key_line_key in E.
      assert (L : has_key k (set_value l v) = true)
        by (apply has_key_line_key; now apply line_key_set_value).
      now rewrite L, (set_value_twice l k v E).
    + rewrite update_key_skip by assumption. cbn [replace_key]. now rewrite E, IH.
Qed.

(** A key that needs no update needs none after the update of another. *)
Lemma replace_key_update_other k v k' v' s :
  k <> k' -> key_token k' = true ->
  replace_key k v s = Some s ->
  replace_key k v (update_key s (k', v')) = Some (update_key s (k', v')).
Proof.
  intros Hne Hk'. induction s as [|l s IH]; [discriminate|].
  cbn [replace_key]. destruct (has_key k l) eqn:E.
  - intro H. assert (H1 : set_value l v = l) by congruence.
    assert (E' : has_key k' l = false).
    { apply has_key_line_key in E. apply (has_key_other k' k l E). congruence. }
    rewrite update_key_skip by assumption. cbn [replace_key]. now rewrite E, H1.
  - destruct (replace_key k v s) as [r|] eqn:R; [|discriminate].
    intro H. assert (r = s) by congruence. subst r.
    destruct (has_key k' l) eqn:E'.
    + rewrite update_key_hit by assumption. cbn [replace_key].
      apply has_key_line_key in E'.
      rewrite (has_key_other k k' (set_value l v')), R; auto.
      now apply line_key_set_value.
    + rewrite update_key_skip by assumption. cbn [replace_key].
      now rewrite E, IH.
Qed.

Lemma update_span_cons item entries span :
  update_span (item :: entries) span
  = update_span entries (update_key span item).
Proof. reflexivity. Qed.

Lemma update_span_settles entries : forall span k v,
  NoDup (keys entries) ->
  Forall (fun key => key_token key = true) (keys entries) ->
  In (k, v) entries
  \/ (replace_key k v span = Some span /\ ~ In k (keys entries)) ->
  replace_key k v (update_span entries span)
  = Some (update_span entries span).
Proof.
  induction entries as [|[k0 v0] entries IH]; intros span k v Hnd Hkt H.
  - destruct H as [[]|[H _]]. exact H.
  - simpl in Hnd, Hkt. inversion Hnd as [|? ? Hnotin Hnd']; subst.
    inversion Hkt as [|? ? Hk0 Hkt']; subst.
    rewrite update_span_cons. apply IH; auto.
    destruct H as [[H|H]|[H Hn]].
    + inversion H; subst. right. split; [|assumption].
      now apply replace_key_update_key.
    + now left.
    + right. simpl in Hn. split; [|tauto].
      apply replace_key_update_other; auto.
Qed.

Lemma update_span_fixed entries : forall span,
  (forall k v, In (k, v) entries -> replace_key k v span = Some span) ->
  update_span entries span = span.
Proof.
  induction entries as [|[k0 v0] entries IH]; intros span H; [reflexivity|].
  rewrite update_span_cons.
  assert (E : update_key span (k0, v0) = span).
  { unfold update_key. rewrite (H k0 v0); simpl; auto. }
  rewrite E. apply IH. intros k v Hin. apply H. simpl. auto.
Qed.

Lemma update_span_idempotent entries span :
  NoDup (keys entries) ->
  Forall (fun key => key_token key = true) (keys entries) ->
  update_span entries (update_span entries span) = update_span entries span.
Proof.
  intros Hnd Hkt. apply update_span_fixed.
  intros k v Hin. apply update_span_settles; auto.
Qed.

Lemma replace_key_new_lines entries : forall k v,
  NoDup (keys entries) ->
  Forall (fun key => key_token key = true) (keys entries) ->
  In (k, v) entries ->
  replace_key k v (map entry_line entries) = Some (map entry_line entries).
Proof.
  induction entries as [|[k0 v0] entries IH]; intros k v Hnd Hkt Hin;
    [contradiction|].
  simpl in Hnd, Hkt. inversion Hnd as [|? ? Hnotin Hnd']; subst.
  inversion Hkt as [|? ? Hk0 Hkt']; subst.
  cbn [map replace_key].
  change (entry_line (k0, v0)) with (key_line k0 v0).
  destruct Hin as [Hin|Hin].
  - inversion Hin; subst.
    assert (L : has_key k (key_line k v) = true)
      by (apply has_key_line_key; now apply line_key_key_line).
    now rewrite L, set_value_key_line.
  - assert (Hne : k <> k0).
    { intros ->. apply Hnotin. unfold keys.
      change k0 with (fst (k0, v)). now apply in_map. }
    rewrite (has_key_other k k0 (key_line k0 v0)); auto.
    + now rewrite IH.
    + now apply line_key_key_line.
Qed.

(** The update of a key brings no header line into the span. *)
Lemma update_key_no_header k v s :
  key_token k = true ->
  Forall (fun l => is_header l = false) s ->
  Forall (fun l => is_header l = false) (update_key s (k, v)).
Proof.
  intros Hk. induction 1 as [|l s Hl Hs IH].
  - unfold update_key. simpl. constructor; [|constructor].
    apply (line_key_not_header _ k). now apply line_key_key_line.
  - destruct (has_key k l) eqn:E.
    + rewrite update_key_hit by assumption. constructor; [|assumption].
      apply has_key_line_key in E.
      apply (line_key_not_header _ k). now apply line_key_set_value.
    + rewrite update_key_skip by assumption. now constructor.
Qed.

Lemma update_span_no_header entries : forall s,
  Forall (fun key => key_token key = true) (keys entries) ->
  Forall (fun l => is_header l = false) s ->
  Forall (fun l => is_header l = false) (update_span entries s).
Proof.
  induction entries as [|[k v] entries IH]; intros s Hkt Hs; [exact Hs|].
  simpl in Hkt. inversion Hkt; subst.
  rewrite update_span_cons. apply IH; [assumption|].
  now apply update_key_no_header.
Qed.

Lemma find_section_spec name : forall file pre h post,
  find_section name file = Some (pre, h, post) ->
  file = pre ++ h :: post /\ header_name h = Some name
  /\ find_section name pre = None.
Proof.
  induction file as [|l file IH]; intros pre h post H; [discriminate|].
  simpl in H.
  destruct (header_name l) as [n|] eqn:E.
  - destruct (String.eqb n name) eqn:En.
    + apply String.eqb_eq in En. inversion H; subst. auto.
    + destruct (find_section name file) as [[[p h'] q]|]; [|discriminate].
      inversion H; subst. destruct (IH p h post eq_refl) as [-> [Hh Hp]].
      simpl. now rewrite E, En, Hp.
  - destruct (find_section name file) as [[[p h'] q]|]; [|discriminate].
    inversion H; subst. destruct (IH p h post eq_refl) as [-> [Hh Hp]].
    simpl. now rewrite E, Hp.
Qed.

Lemma find_section_app name pre : forall rest,
  find_section name pre = None ->
  find_section name (pre ++ rest) =
  match find_section name rest with
  | Some (p, h, q) => Some (pre ++ p, h, q)
  | None => None
  end.
Proof.
  induction pre as [|l pre IH]; intros rest H; simpl.
  - now destruct (find_section name rest) as [[[p h] q]|].
  - simpl in H. destruct (header_name l) as [n|].
    + destruct (String.eqb n name); [discriminate|].
      destruct (find_section name pre) as [[[? ?] ?]|]; [discriminate|].
      rewrite IH by reflexivity.
      now destruct (find_section name rest) as [[[p h] q]|].
    + destruct (find_section name pre) as [[[? ?] ?]|]; [discriminate|].
      rewrite IH by reflexivity.
      now destruct (find_section name rest) as [[[p h] q]|].
Qed.

Lemma find_section_at name pre h post :
  find_section name pre = None -> header_name h = Some name ->
  find_section name (pre ++ h :: post) = Some (pre, h, post).
Proof.
  intros Hp Hh. rewrite find_section_app by assumption.
  simpl. now rewrite Hh, String.eqb_refl, app_nil_r.
Qed.

Lemma span_of_spec : forall post span rest,
  span_of post = (span, rest) ->
  post = span ++ rest
  /\ Forall (fun l => is_header l = false) span
  /\ starts_with_header rest.
Proof.
  induction post as [|l post IH]; intros span rest H; simpl in H.
  - inversion H; subst. simpl. auto.
  - destruct (is_header l) eqn:E.
    + inversion H; subst. simpl. auto.
    + destruct (span_of post) as [sp rs]. inversion H; subst.
      destruct (IH sp rest eq_refl) as [-> [Hsp Hrs]]. auto.
Qed.

Lemma span_of_app span rest :
  Forall (fun l => is_header l = false) span ->
  starts_with_header rest ->
  span_of (span ++ rest) = (span, rest).
Proof.
  intros Hsp Hrs. induction Hsp as [|l span Hl _ IH]; cbn [app span_of].
  - destruct rest as [|r rest]; [reflexivity|].
    cbn [span_of]. unfold starts_with_header in Hrs. now rewrite Hrs.
  - now rewrite Hl, IH.
Qed.

Lemma find_section_separator name entries file :
  find_section name (separator file ++ new_section name entries)
  = Some (separator file, section_header name, map entry_line entries).
Proof.
  unfold separator, new_section.
  destruct (rev file) as [|l ?]; [|destruct (blank l)]; simpl;
    now rewrite header_name_section_header, String.eqb_refl.
Qed.

Lemma new_lines_no_header entries :
  Forall (fun key => key_token key = true) (keys entries) ->
  Forall (fun l => is_header l = false) (map entry_line entries).
Proof.
  induction entries as [|[k v] entries IH]; simpl; intro H; constructor;
    inversion H; subst; auto.
  apply (line_key_not_header _ k). now apply line_key_key_line.
Qed.

Lemma merge_idempotent name entries file :
  NoDup (keys entries) ->
  Forall (fun key => key_token key = true) (keys entries) ->
  merge name entries (merge name entries file) = merge name entries file.
Proof.
  intros Hnd Hkt. unfold merge at 2 3.
  destruct (find_section name file) as [[[pre h] post]|] eqn:F.
  - destruct (span_of post) as [span rest] eqn:S.
    destruct (find_section_spec name file pre h post F) as [_ [Hh Hpre]].
    destruct (span_of_spec post span rest S) as [_ [Hsp Hrs]].
    unfold merge. rewrite (find_section_at name pre h _ Hpre Hh).
    rewrite span_of_app; auto using update_span_no_header.
    now rewrite update_span_idempotent.
  - unfold merge. rewrite find_section_app by assumption.
    rewrite find_section_separator.
    pose proof (new_lines_no_header entries Hkt) as N.
    rewrite <- (app_nil_r (map entry_line entries)) at 1.
    rewrite span_of_app by (auto; exact I).
    rewrite update_span_fixed
      by (intros k v Hin; now apply replace_key_new_lines).
    now rewrite app_nil_r, <- app_assoc.
Qed.

(** *** What the merge leaves alone *)

Lemma replace_key_app k v xs ys :
  replace_key k v (xs ++ ys) =
  match replace_key k v xs with
  | Some r => Some (r ++ ys)
  | None => match replace_key k v ys with
            | Some r => Some (xs ++ r)
            | None => None
            end
  end.
Proof.
  induction xs as [|l xs IH]; cbn [app replace_key].
  - now destruct (replace_key k v ys).
  - destruct (has_key k l); [reflexivity|]. rewrite IH.
    destruct (replace_key k v xs); [reflexivity|].
    now destruct (replace_key k v ys).
Qed.

Lemma replace_key_new_none k v entries :
  Forall (fun item => key_token (fst item) = true /\ fst item <> k) entries ->
  replace_key k v (map entry_line entries) = None.
Proof.
  induction 1 as [|[k0 v0] entries [Hk Hne] _ IH]; [reflexivity|].
  cbn [map replace_key]. change (entry_line (k0, v0)) with (key_line k0 v0).
  simpl in Hk, Hne.
  rewrite (has_key_other k k0 (key_line k0 v0)), IH; auto.
  now apply line_key_key_line.
Qed.

Lemma edited_refl entries l : edited entries l l.
Proof. now left. Qed.

Lemma edited_mono entries entries' l l' :
  incl entries entries' -> edited entries l l' -> edited entries' l l'.
Proof.
  intros Hi [->|[k [v [t [Hin H]]]]]; [now left | right].
  exists k, v, t. split; [now apply Hi | exact H].
Qed.

Lemma edited_keeps_key entries l l' :
  edited entries l l' -> line_key l' = line_key l.
Proof.
  intros [->|[k [v [t [_ [Hk [_ ->]]]]]]]; [reflexivity|].
  rewrite Hk. now apply (line_key_set_value l k v).
Qed.

Lemma Forall2_refl {A} (R : A -> A -> Prop) l :
  (forall x, R x x) -> Forall2 R l l.
Proof. intro H. induction l; constructor; auto. Qed.

(** One key of the profile, against a span edited by earlier keys. *)
Lemma replace_key_frame done k v span span' :
  Forall2 (edited done) span span' ->
  ~ In k (keys done) ->
  match replace_key k v span' with
  | Some r => Forall2 (edited (done ++ [(k, v)])) span r
              /\ existsb (has_key k) span = true
  | None => existsb (has_key k) span = false
  end.
Proof.
  intros H Hk. induction H as [|l l' span span' Hl Hs IH]; [reflexivity|].
  cbn [replace_key existsb].
  assert (Hkey : has_key k l = has_key k l').
  { unfold has_key. now rewrite (edited_keeps_key done l l' Hl). }
  rewrite Hkey. destruct (has_key k l') eqn:E.
  - split; [|reflexivity]. constructor.
    + assert (l' = l) as ->.
      { destruct Hl as [->|[k0 [v0 [t [Hin [Hk0 [_ ->]]]]]]]; [reflexivity|].
        exfalso. apply Hk.
        apply has_key_line_key in E.
        change (line_key (set_value l v0) = Some k) in E.
        rewrite (line_key_set_value l k0 v0 Hk0) in E.
        inversion E; subst k0. unfold keys.
        change k with (fst (k, v0)). now apply in_map. }
      apply has_key_line_key in E.
      destruct (key_prefix_prefix l k E) as [t Ht].
      right. exists k, v, t. repeat split; auto.
      apply in_or_app. right. simpl. auto.
    + eapply Forall2_impl; [|exact Hs].
      intros a b. apply edited_mono. now apply incl_appl.
  - destruct (replace_key k v span') as [r|].
    + destruct IH as [IH1 IH2]. split; [|exact IH2].
      constructor; [|exact IH1].
      eapply edited_mono; [|exact Hl]. now apply incl_appl.
    + exact IH.
Qed.

Lemma missing_app done entries span :
  missing (done ++ entries) span = missing done span ++ missing entries span.
Proof. unfold missing. apply filter_app. Qed.

Lemma missing_keys done span k :
  Forall (fun key => key_token key = true) (keys done) ->
  ~ In k (keys done) ->
  Forall (fun item => key_token (fst item) = true /\ fst item <> k)
         (missing done span).
Proof.
  intros Hkt Hk. apply Forall_forall. intros [k0 v0] Hin.
  unfold missing in Hin. apply filter_In in Hin as [Hin _].
  assert (In k0 (keys done))
    by (unfold keys; change k0 with (fst (k0, v0)); now apply in_map).
  rewrite Forall_forall in Hkt. simpl. split; [now apply Hkt|].
  intros ->. contradiction.
Qed.

Lemma update_span_frame entries : forall done span span',
  NoDup (keys (done ++ entries)) ->
  Forall (fun key => key_token key = true) (keys (done ++ entries)) ->
  Forall2 (edited done) span span' ->
  exists span'',
    update_span entries (span' ++ map entry_line (missing done span))
    = span'' ++ map entry_line (missing (done ++ entries) span)
    /\ Forall2 (edited (done ++ entries)) span span''.
Proof.
  induction entries as [|[k v] entries IH]; intros done span span' Hnd Hkt H.
  - exists span'. rewrite app_nil_r. auto.
  - assert (Hk : ~ In k (keys done)).
    { unfold keys in Hnd. rewrite map_app in Hnd. simpl in Hnd.
      apply NoDup_remove_2 in Hnd. intro Hin. apply Hnd.
      apply in_or_app. now left. }
    assert (Hkt' : Forall (fun key => key_token key = true) (keys done)).
    { unfold keys in Hkt. rewrite map_app in Hkt.
      now apply Forall_app in Hkt. }
    replace (done ++ (k, v) :: entries) with ((done ++ [(k, v)]) ++ entries)
      in * by (now rewrite <- app_assoc).
    rewrite update_span_cons. unfold update_key.
    rewrite replace_key_app.
    pose proof (replace_key_frame done k v span span' H Hk) as F.
    destruct (replace_key k v span') as [r|].
    + destruct F as [F1 F2].
      destruct (IH (done ++ [(k, v)]) span r Hnd Hkt F1) as [s'' [E1 E2]].
      exists s''. split; [|exact E2]. rewrite <- E1.
      rewrite (missing_app done [(k, v)]). unfold missing at 3.
      cbn [filter fst]. now rewrite F2, app_nil_r.
    + rewrite (replace_key_new_none k v) by (now apply missing_keys).
      assert (F1 : Forall2 (edited (done ++ [(k, v)])) span span').
      { eapply Forall2_impl; [|exact H].
        intros a b. apply edited_mono. now apply incl_appl. }
      destruct (IH (done ++ [(k, v)]) span span' Hnd Hkt F1) as [s'' [E1 E2]].
      exists s''. split; [|exact E2]. rewrite <- E1.
      rewrite (missing_app done [(k, v)]). unfold missing at 3.
      cbn [filter fst]. rewrite F. cbn [negb].
      now rewrite map_app, <- app_assoc.
Qed.

Lemma replace_key_find k v s :
  replace_key k v s = Some s ->
  exists l, find (has_key k) s = Some l /\ set_value l v = l.
Proof.
  induction s as [|l s IH]; cbn [replace_key find]; [discriminate|].
  destruct (has_key k l).
  - intro H. exists l. split; [reflexivity | congruence].
  - destruct (replace_key k v s) as [r|]; [|discriminate].
    intro H. apply IH. congruence.
Qed.

Lemma items_keys profile :
  NoDup (keys (items profile))
  /\ Forall (fun key => key_token key = true) (keys (items profile)).
Proof.
  split.
  - repeat constructor; simpl; intuition discriminate.
  - repeat constructor.
Qed.

End MergeFacts.

(** ** The claims about the merge *)

Section MergeClaims.

Import Py ConfigMergeWriter.

(** The merge on the sample files. *)
Example merge_into_empty_file :
  import_credential ("dev", "AKIA1", "SECRET1") []
  = ["[dev]"; "  aws_access_key_id = AKIA1";
     "  aws_secret_access_key = SECRET1"].
Proof. reflexivity. Qed.

Example merge_into_existing_section :
  updateSection profile_default file_two_sections
  = ["# my credentials";
     "[default]";
     "aws_access_key_id = AKIA1";
     "# rotated";
     "aws_secret_access_key= SECRET1";
     EmptyString;
     "[other]";
     "aws_access_key_id = KEEP";
     "region = us-east-1"].
Proof. reflexivity. Qed.

Example merge_adds_missing_key :
  import_credential ("dev", "AKIA1", "SECRET1") file_only_key
  = ["[dev]"; "    aws_access_key_id = AKIA1";
     "  aws_secret_access_key = SECRET1"; "[other]"; "x = 1"].
Proof. reflexivity. Qed.

(** C5. Merging a profile into a file that already went through the
    merge of that profile gives back the same file, line for line, for
    every file and every profile; the same holds for [import_credential]
    and every credential. *)
Theorem updateSection_idempotent :
  (forall profile file,
      updateSection profile (updateSection profile file)
      = updateSection profile file)
  /\ (forall credential file,
        import_credential credential (import_credential credential file)
        = import_credential credential file).
Proof.
  assert (H : forall profile file,
             updateSection profile (updateSection profile file)
             = updateSection profile file).
  { intros profile file. unfold updateSection.
    destruct (items_keys profile) as [Hnd Hkt].
    now apply merge_idempotent. }
  split; [exact H|].
  intros [[name akid] sak] file. unfold import_credential. apply H.
Qed.

(** C6. When the file has a section of the name of the profile, with the
    span [span] between its header and the next header or the end, the
    merge changes nothing outside that span; inside it every line is
    kept as it is, or is the line of a key of the profile whose text
    after the [=] is replaced; the lines of the keys that the span lacks
    are added at its end, and the first line of each key then carries
    the value of the profile.  So when the span has a line for each key
    of the profile, the file keeps its lines one for one, each either
    equal to the line before the merge or a line of a key of the profile
    with the text after its [=] replaced. *)
Theorem updateSection_frame profile file pre h post span rest :
  find_section (sectionName profile) file = Some (pre, h, post) ->
  span_of post = (span, rest) ->
  file = pre ++ h :: span ++ rest
  /\ exists span',
      updateSection profile file
      = pre ++ h :: span'
        ++ map entry_line (missing (items profile) span) ++ rest
      /\ Forall2 (edited (items profile)) span span'
      /\ (missing (items profile) span = [] ->
          Forall2 (edited (items profile)) file
                  (updateSection profile file))
      /\ (forall k v,
            In (k, v) (items profile) ->
            exists l,
              find (has_key k)
                   (span' ++ map entry_line (missing (items profile) span))
              = Some l
              /\ l = (key_prefix l ++ " " ++ v)%string).
Proof.
  intros F S.
  destruct (find_section_spec _ file pre h post F) as [Hfile _].
  destruct (span_of_spec post span rest S) as [Hpost _].
  assert (E : file = pre ++ h :: span ++ rest) by (now rewrite Hfile, Hpost).
  split; [exact E|].
  destruct (items_keys profile) as [Hnd Hkt].
  destruct (update_span_frame (items profile) [] span span Hnd Hkt)
    as [span' [E1 E2]].
  { apply Forall2_refl. apply edited_refl. }
  cbn [app] in E1, E2. change (missing [] span) with (@nil (string * string)) in E1.
  cbn [map] in E1. rewrite app_nil_r in E1.
  assert (U : updateSection profile file
              = pre ++ h :: span'
                ++ map entry_line (missing (items profile) span) ++ rest).
  { unfold updateSection, merge. rewrite F, S, E1.
    now rewrite <- app_assoc. }
  exists span'. split; [exact U|]. split; [exact E2|]. split.
  - intro M. rewrite U, M. cbn [map app]. rewrite E at 1.
    apply Forall2_app; [apply Forall2_refl, edited_refl|].
    constructor; [apply edited_refl|].
    apply Forall2_app; [exact E2 | apply Forall2_refl, edited_refl].
  - intros k v Hin. rewrite <- E1.
    destruct (replace_key_find k v (update_span (items profile) span))
      as [l [Hl Hv]].
    { apply update_span_settles; auto. }
    exists l. split; [exact Hl | now symmetry].
Qed.

Lemma updateSection_frame_witness :
  Forall2 (edited (items profile_default)) file_two_sections
          (updateSection profile_default file_two_sections).
Proof.
  destruct (updateSection_frame profile_default file_two_sections
              ["# my credentials"] "[default]"
              ["aws_access_key_id = OLD"; "# rotated";
               "aws_secret_access_key=OLDSECRET"; EmptyString;
               "[other]"; "aws_access_key_id = KEEP"; "region = us-east-1"]
              ["aws_access_key_id = OLD"; "# rotated";
               "aws_secret_access_key=OLDSECRET"; EmptyString]
              ["[other]"; "aws_access_key_id = KEEP"; "region = us-east-1"]
              eq_refl eq_refl) as [_ [span' [_ [_ [W _]]]]].
  apply W. reflexivity.
Defined.

End MergeClaims.

(** ** Further facts about the string operations *)

Section MoreStringFacts.

Import Py.

Lemma lower_char_idempotent c : lower_char (lower_char c) = lower_char c.
Proof. destruct c as [[] [] [] [] [] [] [] []]; reflexivity. Qed.

Lemma lower_char_comma c : is_comma (lower_char c) = is_comma c.
Proof. destruct c as [[] [] [] [] [] [] [] []]; reflexivity. Qed.

Lemma lower_idempotent s : lower (lower s) = lower s.
Proof.
  induction s as [|c s IH]; simpl; [reflexivity|].
  now rewrite lower_char_idempotent, IH.
Qed.

Lemma lower_lstrip s : lower (lstrip s) = lstrip (lower s).
Proof.
  induction s as [|c s IH]; simpl; [reflexivity|].
  rewrite isspace_lower_char. destruct (isspace c); [exact IH | reflexivity].
Qed.

Lemma lower_rstrip s : lower (rstrip s) = rstrip (lower s).
Proof.
  induction s as [|c s IH]; simpl; [reflexivity|].
  rewrite <- IH, isspace_lower_char.
  destruct (rstrip s); simpl; [|reflexivity].
  destruct (isspace c); reflexivity.
Qed.

Lemma lower_strip s : lower (strip s) = strip (lower s).
Proof. unfold strip. now rewrite lower_rstrip, lower_lstrip. Qed.

Lemma rstrip_idempotent s : rstrip (rstrip s) = rstrip s.
Proof.
  induction s as [|c s IH]; simpl; [reflexivity|].
  destruct (rstrip s) as [|c' r] eqn:E.
  - destruct (isspace c) eqn:Hc; simpl; [reflexivity | now rewrite Hc].
  - cbn [rstrip] in *. now rewrite IH.
Qed.

Lemma lstrip_head_nonspace c r : isspace c = false -> lstrip (String c r) = String c r.
Proof. intro H. simpl. now rewrite H. Qed.

Lemma lstrip_shape s :
  lstrip s = EmptyString
  \/ exists c r, lstrip s = String c r /\ isspace c = false.
Proof.
  induction s as [|c s IH]; simpl; [now left|].
  destruct (isspace c) eqn:E; [exact IH|]. right. eauto.
Qed.

Lemma strip_shape s :
  strip s = EmptyString
  \/ exists c r, strip s = String c r /\ isspace c = false.
Proof.
  unfold strip. destruct (lstrip_shape s) as [->|[c [r [-> Hc]]]].
  - now left.
  - right. destruct (rstrip_head c r Hc) as [r' Hr]. eauto.
Qed.

(** Trimming a trimmed string changes nothing. *)
Lemma strip_idempotent s : strip (strip s) = strip s.
Proof.
  destruct (strip_shape s) as [E|[c [r [E Hc]]]].
  - now rewrite E.
  - unfold strip at 1. rewrite E, (lstrip_head_nonspace c r Hc), <- E.
    unfold strip. apply rstrip_idempotent.
Qed.

Lemma has_char_lstrip p s : has_char p s = false -> has_char p (lstrip s) = false.
Proof.
  induction s as [|c s IH]; simpl; [auto|].
  intro H. apply orb_false_iff in H as [Hc Hs].
  destruct (isspace c); [auto|]. simpl. now rewrite Hc, Hs.
Qed.

Lemma has_char_rstrip p s : has_char p s = false -> has_char p (rstrip s) = false.
Proof.
  induction s as [|c s IH]; simpl; [auto|].
  intro H. apply orb_false_iff in H as [Hc Hs]. specialize (IH Hs).
  destruct (rstrip s); [destruct (isspace c)|]; simpl in *;
    rewrite ?Hc, ?IH; reflexivity.
Qed.

Lemma has_char_strip p s : has_char p s = false -> has_char p (strip s) = false.
Proof. intro H. unfold strip. now apply has_char_rstrip, has_char_lstrip. Qed.

Lemma Forall_cons_first (P : string -> Prop) c l :
  P (String c EmptyString) ->
  (forall f, P f -> P (String c f)) ->
  Forall P l -> Forall P (cons_first c l).
Proof.
  intros H1 H2 H. destruct H; simpl; constructor; auto.
Qed.

(** No piece of a split holds the separator. *)
Lemma split_no_comma s :
  Forall (fun f => has_char is_comma f = false) (split "," s).
Proof.
  induction s as [|c s IH]; simpl.
  - repeat constructor.
  - destruct (Ascii.eqb c ",") eqn:E.
    + constructor; [reflexivity | exact IH].
    + apply Forall_cons_first; auto.
      * simpl. unfold is_comma. now rewrite E.
      * intros f Hf. simpl. unfold is_comma at 1. now rewrite E.
Qed.

Lemma split_has_char p sep s :
  has_char p s = false ->
  Forall (fun f => has_char p f = false) (split sep s).
Proof.
  induction s as [|c s IH]; simpl; intro H.
  - repeat constructor.
  - apply orb_false_iff in H as [Hc Hs]. destruct (Ascii.eqb c sep).
    + constructor; [reflexivity | auto].
    + apply Forall_cons_first; auto.
      * simpl. now rewrite Hc.
      * intros f Hf. simpl. now rewrite Hc.
Qed.

(** No line of [splitlines] holds a line boundary. *)
Lemma splitlines_no_break s :
  Forall (fun l => has_char is_linebreak l = false) (splitlines s).
Proof.
  induction s as [| c | c c' s IHs IHcs] using string_ind2.
  - constructor.
  - simpl. destruct (is_linebreak c) eqn:E; repeat constructor.
    simpl. now rewrite E.
  - change (splitlines (String c (String c' s)))
      with (if is_linebreak c
            then if Ascii.eqb c CR && Ascii.eqb c' LF
                 then EmptyString :: splitlines s
                 else EmptyString :: splitlines (String c' s)
            else cons_first c (splitlines (String c' s))).
    destruct (is_linebreak c) eqn:E.
    + destruct (Ascii.eqb c CR && Ascii.eqb c' LF); constructor; auto.
    + apply Forall_cons_first; auto.
      * simpl. now rewrite E.
      * intros f Hf. simpl. now rewrite E.
Qed.

Lemma cons_first_map (g : ascii -> ascii) (G : string -> string) c l :
  (forall c s, G (String c s) = String (g c) (G s)) ->
  G EmptyString = EmptyString ->
  map G (cons_first c l) = cons_first (g c) (map G l).
Proof.
  intros H1 H0. destruct l; simpl; rewrite H1, ?H0; reflexivity.
Qed.

Lemma split_lower s : split "," (lower s) = map lower (split "," s).
Proof.
  induction s as [|c s IH]; simpl; [reflexivity|].
  pose proof (lower_char_comma c) as E. unfold is_comma in E. rewrite E.
  destruct (Ascii.eqb c ","); simpl; rewrite IH; [reflexivity|].
  symmetry. apply cons_first_map; reflexivity.
Qed.

Lemma append_cancel_l (s t t' : string) : (s ++ t = s ++ t')%string -> t = t'.
Proof.
  induction s as [|c s IH]; simpl; intro H; [exact H|].
  inversion H. auto.
Qed.

Lemma str_of_nat_injective n m : str_of_nat n = str_of_nat m -> n = m.
Proof.
  unfold str_of_nat. intro H.
  apply (f_equal NilEmpty.uint_of_string) in H.
  rewrite !NilEmpty.usu in H. inversion H as [H'].
  now apply DecimalNat.Unsigned.to_uint_inj.
Qed.

End MoreStringFacts.

(** ** Further facts about the parser *)

Section ParserExtras.

Import Py.

Lemma passes_cases self u a s row :
  passes self u a s row
  \/ fields u a s row = None
  \/ exists c, fields u a s row = Some c /\ complete c = false
                /\ strict self = true.
Proof.
  unfold passes. destruct (fields u a s row) as [c|]; [|auto].
  destruct (complete c) eqn:C; [left; eauto|].
  destruct (strict self) eqn:S; [right; right; eauto | left; eauto].
Qed.

(** The rows all pass, or there is a first row that does not. *)
Lemma rows_first_stop self u a s rows :
  Forall (passes self u a s) rows
  \/ exists pre row post,
      rows = pre ++ row :: post /\ Forall (passes self u a s) pre
      /\ (fields u a s row = None
          \/ exists c, fields u a s row = Some c /\ complete c = false
                        /\ strict self = true).
Proof.
  induction rows as [|row rows IH]; [left; constructor|].
  destruct (passes_cases self u a s row) as [P|N].
  - destruct IH as [IH|[pre [r [post [-> [Hpre Hr]]]]]].
    + left. now constructor.
    + right. exists (row :: pre), r, post. repeat split; auto.
  - right. exists [], row, rows. repeat split; auto.
Qed.

Lemma rows_loop_all_pass self u a s rows n acc :
  Forall (passes self u a s) rows ->
  rows_loop self u a s rows n acc
  = inr (acc ++ filter complete (triples u a s rows)).
Proof.
  intro H. rewrite <- (app_nil_r rows) at 1.
  now rewrite rows_loop_app.
Qed.

Lemma rows_loop_stop self u a s pre row post n acc :
  Forall (passes self u a s) pre ->
  rows_loop self u a s (pre ++ row :: post) n acc =
  match fields u a s row with
  | None => inl IndexError
  | Some c =>
      if complete c
      then rows_loop self u a s post (n + length pre + 1)
             ((acc ++ filter complete (triples u a s pre)) ++ [c])
      else if strict self
           then inl (CredentialParserError
                       (invalid_row_message c (n + length pre + 1)))
           else rows_loop self u a s post (n + length pre + 1)
                  (acc ++ filter complete (triples u a s pre))
  end.
Proof.
  intro H. rewrite rows_loop_app by assumption. now rewrite rows_loop_cons.
Qed.

(** A returned list means that every row passed. *)
Lemma rows_loop_return_inv self u a s rows n acc r :
  rows_loop self u a s rows n acc = inr r ->
  Forall (passes self u a s) rows
  /\ r = acc ++ filter complete (triples u a s rows).
Proof.
  intro H.
  destruct (rows_first_stop self u a s rows)
    as [P|[pre [row [post [-> [Hpre Hrow]]]]]].
  - split; [exact P|]. rewrite rows_loop_all_pass in H by assumption.
    congruence.
  - rewrite rows_loop_stop in H by assumption.
    destruct Hrow as [E|[c [E [C S]]]]; rewrite E in H; [discriminate|].
    rewrite C, S in H. discriminate.
Qed.

Lemma blank_false_lines csv :
  blank csv = false -> exists h rows, splitlines csv = h :: rows.
Proof.
  intro B. destruct csv as [|c csv]; [discriminate|].
  destruct (splitlines (String c csv)) as [|h rows] eqn:L.
  - now apply splitlines_not_nil in L.
  - eauto.
Qed.

Lemma missing_label_none h :
  missing_label h = None ->
  exists u a s, position _USERNAME_HEADER h = Some u
                /\ position _AKID_HEADER h = Some a
                /\ position _SAK_HEADER h = Some s.
Proof.
  intro M. pose proof (missing_label_spec h) as H. rewrite M in H.
  destruct (position _USERNAME_HEADER h) as [u|] eqn:Hu;
    [|exfalso; apply (H _USERNAME_HEADER); [simpl; auto | exact Hu]].
  destruct (position _AKID_HEADER h) as [a|] eqn:Ha;
    [|exfalso; apply (H _AKID_HEADER); [simpl; auto | exact Ha]].
  destruct (position _SAK_HEADER h) as [s|] eqn:Hs;
    [|exfalso; apply (H _SAK_HEADER); [simpl; auto | exact Hs]].
  exists u, a, s. auto.
Qed.

Lemma positions_missing_label h u a s :
  position _USERNAME_HEADER h = Some u ->
  position _AKID_HEADER h = Some a ->
  position _SAK_HEADER h = Some s ->
  missing_label h = None.
Proof.
  intros Hu Ha Hs. unfold missing_label, _EXPECTED_HEADERS. simpl.
  now rewrite Hu, Ha, Hs.
Qed.

(** Every parse ends in one of the five ways. *)
Lemma parse_outcome self csv : outcome self csv (parse_credentials self csv).
Proof.
  destruct (blank csv) eqn:B.
  - unfold parse_credentials. rewrite _parse_csv_blank by assumption.
    now constructor.
  - destruct (blank_false_lines csv B) as [h [rows L]].
    destruct (missing_label h) as [label|] eqn:M.
    + unfold parse_credentials.
      rewrite (_parse_csv_lines self csv h rows L B).
      rewrite _parse_csv_headers_missing, M.
      now apply (outcome_header self csv h rows label).
    + destruct (missing_label_none h M) as [u [a [s [Hu [Ha Hs]]]]].
      rewrite (parse_credentials_rows self csv h rows u a s L Hu Ha Hs).
      destruct (rows_first_stop self u a s rows)
        as [P|[pre [row [post [-> [Hpre Hrow]]]]]].
      * rewrite rows_loop_all_pass by assumption.
        now apply (outcome_return self csv h rows u a s).
      * rewrite rows_loop_stop by assumption.
        destruct Hrow as [E|[c [E [C S]]]]; rewrite E.
        -- now apply (outcome_short_row self csv h pre row post u a s).
        -- rewrite C, S.
           now apply (outcome_invalid_row self csv h pre row post u a s c).
Qed.

Lemma outcome_sound self csv r :
  outcome self csv r -> parse_credentials self csv = r.
Proof.
  intros [B | h rows label B L M | h pre row post u a s L Hu Ha Hs P E
          | h pre row post u a s c L Hu Ha Hs P E C S | h rows u a s L Hu Ha Hs P].
  - now apply _parse_csv_blank.
  - unfold parse_credentials.
    rewrite (_parse_csv_lines self csv h rows L B).
    now rewrite _parse_csv_headers_missing, M.
  - rewrite (parse_credentials_rows self csv h _ u a s L Hu Ha Hs).
    rewrite rows_loop_stop by assumption. now rewrite E.
  - rewrite (parse_credentials_rows self csv h _ u a s L Hu Ha Hs).
    rewrite rows_loop_stop by assumption. now rewrite E, C, S.
  - rewrite (parse_credentials_rows self csv h _ u a s L Hu Ha Hs).
    now apply rows_loop_all_pass.
Qed.

(** X1. The result of a parse is [r] exactly when the text ends the
    parse in one of the five ways of [outcome] with [r]: the five cases
    cover every text and each gives one result. *)
Theorem parse_credentials_outcome self csv r :
  parse_credentials self csv = r <-> outcome self csv r.
Proof.
  split.
  - intros <-. apply parse_outcome.
  - apply outcome_sound.
Qed.

Lemma parse_credentials_outcome_witness :
  outcome strict_parser csv_alice
    (inl (CredentialParserError (_INVALID_USERNAME 2))).
Proof.
  apply (proj1 (parse_credentials_outcome strict_parser csv_alice _)).
  reflexivity.
Defined.

(** *** The exceptions of a parse *)

Lemma invalid_username_injective n m :
  _INVALID_USERNAME n = _INVALID_USERNAME m -> n = m.
Proof.
  unfold _INVALID_USERNAME. intro H. apply append_cancel_l in H.
  now apply str_of_nat_injective.
Qed.

Lemma invalid_secret_injective n m :
  _INVALID_SECRET n = _INVALID_SECRET m -> n = m.
Proof.
  unfold _INVALID_SECRET. intro H. apply append_cancel_l in H.
  now apply str_of_nat_injective.
Qed.

Lemma invalid_username_not_secret n m : _INVALID_USERNAME n <> _INVALID_SECRET m.
Proof. unfold _INVALID_USERNAME, _INVALID_SECRET. simpl. discriminate. Qed.

Lemma invalid_not_empty n :
  _INVALID_USERNAME n <> _EMPTY_CSV /\ _INVALID_SECRET n <> _EMPTY_CSV.
Proof. split; discriminate. Qed.

Lemma invalid_not_header n label :
  _INVALID_USERNAME n <> _HEADER_NOT_FOUND label
  /\ _INVALID_SECRET n <> _HEADER_NOT_FOUND label.
Proof. split; discriminate. Qed.

Lemma fields_None u a s row :
  fields u a s row = None
  <-> length (split "," row) <= Nat.max u (Nat.max a s).
Proof.
  unfold fields.
  destruct (nth_error (split "," row) u) as [fu|] eqn:Eu.
  - destruct (nth_error (split "," row) a) as [fa|] eqn:Ea.
    + destruct (nth_error (split "," row) s) as [fs|] eqn:Es.
      * assert (u < length (split "," row))
          by (apply nth_error_Some; congruence).
        assert (a < length (split "," row))
          by (apply nth_error_Some; congruence).
        assert (s < length (split "," row))
          by (apply nth_error_Some; congruence).
        split; [discriminate | lia].
      * apply nth_error_None in Es. split; [lia | reflexivity].
    + apply nth_error_None in Ea. split; [lia | reflexivity].
  - apply nth_error_None in Eu. split; [lia | reflexivity].
Qed.

Lemma passes_strict self u a s rows :
  strict self = true ->
  Forall (passes self u a s) rows ->
  Forall (fun r => exists c, fields u a s r = Some c /\ complete c = true)
         rows.
Proof.
  intro S. apply Forall_impl. intros r [c [Hc [Hk|Hk]]]; [eauto | congruence].
Qed.

Lemma passes_lenient self self' u a s rows :
  strict self' = false ->
  Forall (passes self u a s) rows -> Forall (passes self' u a s) rows.
Proof.
  intro S. apply Forall_impl. intros r [c [Hc _]]. exists c. auto.
Qed.

(** X2. A parse never raises [ValueError]: the [index] call after the
    membership test always finds the label, and the header stage always
    hands three columns to the unpacking of the row stage. *)
Theorem parse_credentials_never_ValueError self csv :
  parse_credentials self csv <> inl ValueError.
Proof.
  intro E. pose proof (parse_outcome self csv) as H. rewrite E in H.
  inversion H.
Qed.

(** X3. A parse raises [IndexError] only at a data row that has fewer
    fields than the largest recorded column plus one, every row before it
    having passed: the access to the first line never raises it. *)
Theorem IndexError_only_from_short_row self csv :
  parse_credentials self csv = inl IndexError ->
  exists h pre row post u a s,
    splitlines csv = h :: pre ++ row :: post
    /\ position _USERNAME_HEADER h = Some u
    /\ position _AKID_HEADER h = Some a
    /\ position _SAK_HEADER h = Some s
    /\ Forall (passes self u a s) pre
    /\ length (split "," row) <= Nat.max u (Nat.max a s).
Proof.
  intro E. pose proof (parse_outcome self csv) as H. rewrite E in H.
  remember (@inl exn (list Credential) IndexError) as r eqn:R.
  destruct H as [B | h rows label B L M | h pre row post u a s L Hu Ha Hs P F
          | h pre row post u a s c L Hu Ha Hs P F C S | h rows u a s L Hu Ha Hs P];
    try discriminate.
  exists h, pre, row, post, u, a, s. repeat split; auto.
  now apply fields_None.
Qed.

Lemma IndexError_only_from_short_row_witness :
  exists h pre row post u a s,
    splitlines csv_short_row = h :: pre ++ row :: post
    /\ position _USERNAME_HEADER h = Some u
    /\ position _AKID_HEADER h = Some a
    /\ position _SAK_HEADER h = Some s
    /\ Forall (passes lenient_parser u a s) pre
    /\ length (split "," row) <= Nat.max u (Nat.max a s).
Proof.
  apply (IndexError_only_from_short_row lenient_parser csv_short_row).
  reflexivity.
Defined.

(** X4. In lenient mode a parse raises no invalid-row message: its only
    exceptions are the empty-input message, the header-not-found message
    of a required label, and [IndexError]. *)
Theorem lenient_exceptions self csv e :
  strict self = false ->
  parse_credentials self csv = inl e ->
  e = CredentialParserError _EMPTY_CSV
  \/ (exists label, In label _EXPECTED_HEADERS
                    /\ e = CredentialParserError (_HEADER_NOT_FOUND label))
  \/ e = IndexError.
Proof.
  intros Sf E. pose proof (parse_outcome self csv) as H. rewrite E in H.
  remember (@inl exn (list Credential) e) as r eqn:R.
  destruct H as [B | h rows label B L M | h pre row post u a s L Hu Ha Hs P F
          | h pre row post u a s c L Hu Ha Hs P F C S | h rows u a s L Hu Ha Hs P];
    try discriminate; try congruence.
  - inversion R. auto.
  - inversion R. right. left. exists label. split; [|reflexivity].
    pose proof (missing_label_spec h) as Hm. rewrite M in Hm. tauto.
  - inversion R. auto.
Qed.

Lemma lenient_exceptions_witness :
  IndexError = CredentialParserError _EMPTY_CSV
  \/ (exists label, In label _EXPECTED_HEADERS
                    /\ IndexError
                       = CredentialParserError (_HEADER_NOT_FOUND label))
  \/ IndexError = IndexError.
Proof.
  apply (lenient_exceptions lenient_parser csv_short_row IndexError);
    reflexivity.
Defined.

(** X5. The entry number of an invalid-row message is the 1-based number
    of the first incomplete data row: the parser is strict, the rows
    before that row are complete, and the row has an empty trimmed user
    name for the user-name message, a user name and an empty key for the
    secret message. *)
Theorem invalid_row_message_origin self csv k :
  (parse_credentials self csv
   = inl (CredentialParserError (_INVALID_USERNAME k)) ->
   strict self = true
   /\ exists h pre row post u a s akid sak,
       splitlines csv = h :: pre ++ row :: post
       /\ position _USERNAME_HEADER h = Some u
       /\ position _AKID_HEADER h = Some a
       /\ position _SAK_HEADER h = Some s
       /\ k = length pre + 1
       /\ Forall (fun r => exists c, fields u a s r = Some c
                                     /\ complete c = true) pre
       /\ fields u a s row = Some (EmptyString, akid, sak))
  /\ (parse_credentials self csv
      = inl (CredentialParserError (_INVALID_SECRET k)) ->
      strict self = true
      /\ exists h pre row post u a s username akid sak,
          splitlines csv = h :: pre ++ row :: post
          /\ position _USERNAME_HEADER h = Some u
          /\ position _AKID_HEADER h = Some a
          /\ position _SAK_HEADER h = Some s
          /\ k = length pre + 1
          /\ Forall (fun r => exists c, fields u a s r = Some c
                                        /\ complete c = true) pre
          /\ fields u a s row = Some (username, akid, sak)
          /\ username <> EmptyString
          /\ (akid = EmptyString \/ sak = EmptyString)).
Proof.
  split; intro E; pose proof (parse_outcome self csv) as H; rewrite E in H.
  - remember (@inl exn (list Credential)
                (CredentialParserError (_INVALID_USERNAME k))) as r eqn:R.
    destruct H as [B | h rows label B L M | h pre row post u a s L Hu Ha Hs P F
          | h pre row post u a s c L Hu Ha Hs P F C S | h rows u a s L Hu Ha Hs P];
      try discriminate.
    inversion R as [R']. destruct c as [[username akid] sak].
    unfold invalid_row_message in R'. simpl fst in R'.
    destruct (is_empty username) eqn:Eu.
    + apply invalid_username_injective in R'. apply is_empty_true in Eu.
      subst username k. split; [exact S|].
      exists h, pre, row, post, u, a, s, akid, sak.
      repeat split; auto. now apply (passes_strict self).
    + symmetry in R'. now apply invalid_username_not_secret in R'.
  - remember (@inl exn (list Credential)
                (CredentialParserError (_INVALID_SECRET k))) as r eqn:R.
    destruct H as [B | h rows label B L M | h pre row post u a s L Hu Ha Hs P F
          | h pre row post u a s c L Hu Ha Hs P F C S | h rows u a s L Hu Ha Hs P];
      try discriminate.
    inversion R as [R']. destruct c as [[username akid] sak].
    unfold invalid_row_message in R'. simpl fst in R'.
    destruct (is_empty username) eqn:Eu.
    + now apply invalid_username_not_secret in R'.
    + apply invalid_secret_injective in R'. subst k.
      split; [exact S|].
      exists h, pre, row, post, u, a, s, username, akid, sak.
      repeat split; auto.
      * now apply (passes_strict self).
      * intros ->. discriminate.
      * unfold complete in C. rewrite Eu in C. simpl in C.
        destruct akid; [now left|]. destruct sak; [now right|].
        discriminate.
Qed.

Lemma invalid_row_message_origin_witness :
  strict strict_parser = true
  /\ exists h pre row post u a s akid sak,
      splitlines csv_alice = h :: pre ++ row :: post
      /\ position _USERNAME_HEADER h = Some u
      /\ position _AKID_HEADER h = Some a
      /\ position _SAK_HEADER h = Some s
      /\ 2 = length pre + 1
      /\ Forall (fun r => exists c, fields u a s r = Some c
                                    /\ complete c = true) pre
      /\ fields u a s row = Some (EmptyString, akid, sak).
Proof.
  apply (proj1 (invalid_row_message_origin strict_parser csv_alice 2)).
  reflexivity.
Defined.

(** X6. The two modes give the same result on every text, except when
    strict mode raises an invalid-row message. *)
Theorem modes_agree_unless_invalid_row self self' csv :
  strict self = true ->
  strict self' = false ->
  parse_credentials self csv = parse_credentials self' csv
  \/ exists k,
      parse_credentials self csv
      = inl (CredentialParserError (_INVALID_USERNAME k))
      \/ parse_credentials self csv
         = inl (CredentialParserError (_INVALID_SECRET k)).
Proof.
  intros St Sf. pose proof (parse_outcome self csv) as H.
  remember (parse_credentials self csv) as r eqn:R.
  destruct H as [B | h rows label B L M | h pre row post u a s L Hu Ha Hs P F
          | h pre row post u a s c L Hu Ha Hs P F C S | h rows u a s L Hu Ha Hs P].
  - left. symmetry. apply outcome_sound. now constructor.
  - left. symmetry. apply outcome_sound.
    now apply (outcome_header self' csv h rows label).
  - left. symmetry. apply outcome_sound.
    apply (outcome_short_row self' csv h pre row post u a s); auto.
    now apply (passes_lenient self).
  - right. exists (length pre + 1). unfold invalid_row_message.
    destruct (is_empty (fst (fst c))); auto.
  - left. symmetry. apply outcome_sound.
    apply (outcome_return self' csv h rows u a s); auto.
    now apply (passes_lenient self).
Qed.

Lemma modes_agree_unless_invalid_row_witness :
  parse_credentials strict_parser csv_two_users
  = parse_credentials lenient_parser csv_two_users
  \/ exists k,
      parse_credentials strict_parser csv_two_users
      = inl (CredentialParserError (_INVALID_USERNAME k))
      \/ parse_credentials strict_parser csv_two_users
         = inl (CredentialParserError (_INVALID_SECRET k)).
Proof.
  apply (modes_agree_unless_invalid_row strict_parser lenient_parser
           csv_two_users); reflexivity.
Defined.

(** *** The credentials of a parse *)

Lemma clean_strip row f :
  has_char is_linebreak row = false ->
  In f (split "," row) ->
  strip f <> EmptyString ->
  clean (strip f).
Proof.
  intros Hrow Hin Hne. unfold clean. repeat split.
  - exact Hne.
  - apply strip_idempotent.
  - apply has_char_strip.
    pose proof (split_no_comma row) as H. rewrite Forall_forall in H. auto.
  - apply has_char_strip.
    pose proof (split_has_char is_linebreak "," row Hrow) as H.
    rewrite Forall_forall in H. auto.
Qed.

Lemma In_triples u a s rows c :
  In c (triples u a s rows) ->
  exists row, In row rows /\ fields u a s row = Some c.
Proof.
  unfold triples. rewrite in_flat_map. intros [row [Hin Hc]].
  exists row. split; [exact Hin|].
  destruct (fields u a s row) as [c'|]; [|contradiction].
  destruct Hc as [->|[]]. reflexivity.
Qed.

(** X7. Every credential a parse returns, in either mode, has three
    fields that are not empty, carry no whitespace at either end, and
    hold no comma and no line boundary. *)
Theorem credentials_are_clean self csv creds username akid sak :
  parse_credentials self csv = inr creds ->
  In (username, akid, sak) creds ->
  clean username /\ clean akid /\ clean sak.
Proof.
  intros E Hin. pose proof (parse_outcome self csv) as H. rewrite E in H.
  remember (@inr exn (list Credential) creds) as r eqn:R.
  destruct H as [B | h rows label B L M | h pre row post u a s L Hu Ha Hs P F
          | h pre row post u a s c L Hu Ha Hs P F C S | h rows u a s L Hu Ha Hs P];
    try discriminate.
  inversion R; subst creds. apply filter_In in Hin as [Hin C].
  apply In_triples in Hin as [row [Hrow F]].
  assert (Hbreak : has_char is_linebreak row = false).
  { pose proof (splitlines_no_break csv) as Hl. rewrite L in Hl.
    rewrite Forall_forall in Hl. apply Hl. now right. }
  unfold fields in F.
  destruct (nth_error (split "," row) u) as [fu|] eqn:Eu; [|discriminate].
  destruct (nth_error (split "," row) a) as [fa|] eqn:Ea; [|discriminate].
  destruct (nth_error (split "," row) s) as [fs|] eqn:Es; [|discriminate].
  inversion F; subst. apply nth_error_In in Eu, Ea, Es.
  unfold complete in C.
  apply andb_true_iff in C as [C C3]. apply andb_true_iff in C as [C1 C2].
  repeat split; apply (clean_strip row); auto; intro Z; rewrite Z in *;
    discriminate.
Qed.

Lemma credentials_are_clean_witness :
  clean "alice" /\ clean "AKIA1" /\ clean "SECRET1".
Proof.
  apply (credentials_are_clean lenient_parser csv_alice
           [("alice", "AKIA1", "SECRET1")]).
  - reflexivity.
  - left. reflexivity.
Defined.

Lemma triples_length u a s rows :
  length (filter complete (triples u a s rows)) <= length rows.
Proof.
  induction rows as [|row rows IH]; [apply Nat.le_refl|].
  unfold triples in *. simpl. rewrite filter_app, length_app.
  destruct (fields u a s row) as [c|]; simpl; [|lia].
  destruct (complete c); simpl; lia.
Qed.

Lemma triples_length_strict self u a s rows :
  strict self = true ->
  Forall (passes self u a s) rows ->
  length (filter complete (triples u a s rows)) = length rows.
Proof.
  intros S H. induction H as [|row rows [c [Hc Hk]] _ IH]; [reflexivity|].
  destruct Hk as [Hk|Hk]; [|congruence].
  unfold triples in *. simpl. rewrite filter_app, length_app, Hc. simpl.
  rewrite Hk. simpl. now rewrite IH.
Qed.

(** X8. A parse that returns gives at most one credential per data
    line, and in strict mode exactly one per data line. *)
Theorem credentials_count self csv creds :
  parse_credentials self csv = inr creds ->
  length creds <= length (splitlines csv) - 1
  /\ (strict self = true -> length creds = length (splitlines csv) - 1).
Proof.
  intros E. pose proof (parse_outcome self csv) as H. rewrite E in H.
  remember (@inr exn (list Credential) creds) as r eqn:R.
  destruct H as [B | h rows label B L M | h pre row post u a s L Hu Ha Hs P F
          | h pre row post u a s c L Hu Ha Hs P F C S | h rows u a s L Hu Ha Hs P];
    try discriminate.
  inversion R; subst creds. rewrite L.
  replace (length (h :: rows) - 1) with (length rows) by (simpl; lia).
  split; [apply triples_length|].
  intro S. now apply (triples_length_strict self).
Qed.

Lemma credentials_count_witness :
  length [("alice", "AKIA1", "SECRET1")] <= length (splitlines csv_alice) - 1
  /\ (strict lenient_parser = true ->
      length [("alice", "AKIA1", "SECRET1")]
      = length (splitlines csv_alice) - 1).
Proof.
  apply (credentials_count lenient_parser csv_alice). reflexivity.
Defined.

(** *** The columns of the header row *)

Lemma headers_positions h idx :
  _parse_csv_headers h = inr idx ->
  exists u a s, idx = [u; a; s]
                /\ position _USERNAME_HEADER h = Some u
                /\ position _AKID_HEADER h = Some a
                /\ position _SAK_HEADER h = Some s.
Proof.
  rewrite _parse_csv_headers_spec.
  destruct (position _USERNAME_HEADER h) as [u|]; [|discriminate].
  destruct (position _AKID_HEADER h) as [a|]; [|discriminate].
  destruct (position _SAK_HEADER h) as [s|]; [|discriminate].
  intro H. inversion H. exists u, a, s. auto.
Qed.

Lemma position_in_range label h i :
  position label h = Some i -> i < length (split "," h).
Proof.
  intro H. apply index_nth_error in H.
  rewrite <- (length_map _format_header). apply nth_error_Some. congruence.
Qed.

Lemma positions_distinct h u a s :
  position _USERNAME_HEADER h = Some u ->
  position _AKID_HEADER h = Some a ->
  position _SAK_HEADER h = Some s ->
  u <> a /\ u <> s /\ a <> s.
Proof.
  intros Hu Ha Hs. apply index_nth_error in Hu, Ha, Hs.
  repeat split; intros ->.
  - rewrite Hu in Ha. vm_compute in Ha. discriminate.
  - rewrite Hu in Hs. vm_compute in Hs. discriminate.
  - rewrite Ha in Hs. vm_compute in Hs. discriminate.
Qed.

(** X9. The columns the header stage records are three different
    columns of the header row. *)
Theorem header_columns_distinct h idx :
  _parse_csv_headers h = inr idx ->
  exists u a s,
    idx = [u; a; s]
    /\ u < length (split "," h) /\ a < length (split "," h)
    /\ s < length (split "," h)
    /\ u <> a /\ u <> s /\ a <> s.
Proof.
  intro H. destruct (headers_positions h idx H) as [u [a [s [-> [Hu [Ha Hs]]]]]].
  exists u, a, s.
  destruct (positions_distinct h u a s Hu Ha Hs) as [D1 [D2 D3]].
  repeat split; auto; eapply position_in_range; eassumption.
Qed.

Lemma header_columns_distinct_witness :
  exists u a s,
    [2; 4; 1] = [u; a; s]
    /\ u < length (split "," header_console)
    /\ a < length (split "," header_console)
    /\ s < length (split "," header_console)
    /\ u <> a /\ u <> s /\ a <> s.
Proof.
  apply (header_columns_distinct header_console [2; 4; 1]). reflexivity.
Defined.

Lemma index_first x l : forall i j,
  index x l = Some i -> j < i -> nth_error l j <> Some x.
Proof.
  induction l as [|y l IH]; intros i j H Hj; [discriminate|].
  simpl in H. destruct (String.eqb y x) eqn:E.
  - inversion H; subst. lia.
  - apply String.eqb_neq in E.
    destruct (index x l) as [i'|] eqn:I; [|discriminate].
    inversion H; subst. destruct j as [|j]; simpl.
    + congruence.
    + apply (IH i'); [reflexivity | lia].
Qed.

Lemma position_leftmost label h i :
  position label h = Some i -> leftmost label h i.
Proof.
  unfold position, leftmost. intro H. split.
  - apply index_nth_error in H. rewrite nth_error_map in H.
    destruct (nth_error (split "," h) i) as [f|]; [|discriminate].
    exists f. split; [reflexivity|]. simpl in H. congruence.
  - intros j f Hj Hf E.
    apply (index_first _ _ i j H Hj).
    rewrite nth_error_map, Hf. simpl. now rewrite E.
Qed.

(** X10. Each column the header stage records is the leftmost column
    whose field matches its label: when a label occurs twice in the
    header row, the first occurrence is the one used. *)
Theorem header_columns_leftmost h u a s :
  _parse_csv_headers h = inr [u; a; s] ->
  leftmost _USERNAME_HEADER h u /\ leftmost _AKID_HEADER h a
  /\ leftmost _SAK_HEADER h s.
Proof.
  intro H. destruct (headers_positions h _ H) as [u' [a' [s' [E [Hu [Ha Hs]]]]]].
  inversion E; subst u' a' s'.
  repeat split; now apply position_leftmost.
Qed.

Lemma header_columns_leftmost_witness :
  leftmost _USERNAME_HEADER header_twice 0
  /\ leftmost _AKID_HEADER header_twice 1
  /\ leftmost _SAK_HEADER header_twice 3.
Proof.
  apply (header_columns_leftmost header_twice 0 1 3). reflexivity.
Defined.

(** X11. Lower-casing the header row changes neither the columns the
    header stage records nor the exception it raises. *)
Theorem header_stage_ignores_case h :
  _parse_csv_headers (lower h) = _parse_csv_headers h.
Proof.
  unfold _parse_csv_headers. rewrite split_lower, map_map.
  f_equal. apply map_ext. intro f. unfold _format_header.
  now rewrite lower_idempotent.
Qed.

(** X12. Normalising a header field twice is normalising it once: the
    lower-cased, trimmed form of a field is its own normal form. *)
Theorem _format_header_idempotent header :
  _format_header (_format_header header) = _format_header header.
Proof.
  unfold _format_header.
  now rewrite lower_strip, lower_idempotent, strip_idempotent.
Qed.

(** *** The data rows *)

(** X13. Whatever columns the header row gives the labels, a data line
    with fewer than three comma-separated fields (a blank line, for
    one), reached without an earlier exception, makes the parse raise
    [IndexError] in both modes. *)
Theorem row_with_fewer_than_three_fields self csv h pre row post u a s :
  splitlines csv = h :: pre ++ row :: post ->
  position _USERNAME_HEADER h = Some u ->
  position _AKID_HEADER h = Some a ->
  position _SAK_HEADER h = Some s ->
  Forall (passes self u a s) pre ->
  length (split "," row) < 3 ->
  parse_credentials self csv = inl IndexError.
Proof.
  intros L Hu Ha Hs P Hlen.
  destruct (positions_distinct h u a s Hu Ha Hs) as [D1 [D2 D3]].
  rewrite (parse_credentials_rows self csv h _ u a s L Hu Ha Hs).
  rewrite rows_loop_stop by assumption.
  assert (F : fields u a s row = None) by (apply fields_None; lia).
  now rewrite F.
Qed.

Lemma row_with_fewer_than_three_fields_witness :
  parse_credentials lenient_parser csv_blank_line = inl IndexError.
Proof.
  apply (row_with_fewer_than_three_fields lenient_parser csv_blank_line
           header_plain ["alice,AKIA1,SECRET1"] EmptyString
           ["bob,AKIA2,SECRET2"] 0 1 2); try reflexivity.
  - repeat constructor. exists ("alice", "AKIA1", "SECRET1").
    split; [reflexivity | left; reflexivity].
  - simpl. lia.
Defined.

Lemma rows_loop_same_fields self u a s rows rows' :
  Forall2 (fun r r' => fields u a s r = fields u a s r') rows rows' ->
  forall n acc,
    rows_loop self u a s rows n acc = rows_loop self u a s rows' n acc.
Proof.
  induction 1 as [|r r' rows rows' Hr _ IH]; intros n acc; [reflexivity|].
  rewrite !rows_loop_cons, Hr.
  destruct (fields u a s r') as [c|]; [|reflexivity].
  destruct (complete c); [apply IH|].
  destruct (strict self); [reflexivity | apply IH].
Qed.

(** X14. The row stage looks at the three recorded columns only: two
    lists of rows whose rows agree at these columns, field for field
    after trimming, give the same result, whatever the other columns
    hold. *)
Theorem rows_depend_on_recorded_columns self u a s rows rows' :
  Forall2 (fun r r' => fields u a s r = fields u a s r') rows rows' ->
  _parse_csv_rows self rows [u; a; s] = _parse_csv_rows self rows' [u; a; s].
Proof.
  intro H. unfold _parse_csv_rows. now apply rows_loop_same_fields.
Qed.

Lemma rows_depend_on_recorded_columns_witness :
  _parse_csv_rows lenient_parser rows_with_passwords [0; 2; 3]
  = _parse_csv_rows lenient_parser rows_without_passwords [0; 2; 3].
Proof.
  apply (rows_depend_on_recorded_columns lenient_parser 0 2 3).
  repeat constructor.
Defined.

(** X15. The row stage stops at the first exception: rows added after
    the rows of a failed run do not change the exception. *)
Theorem rows_fail_fast self rows more headers e :
  _parse_csv_rows self rows headers = inl e ->
  _parse_csv_rows self (rows ++ more) headers = inl e.
Proof.
  unfold _parse_csv_rows.
  destruct headers as [|u [|a [|s [|x headers]]]]; auto.
  apply rows_loop_raise_app.
Qed.

Lemma rows_fail_fast_witness :
  _parse_csv_rows strict_parser
    (["alice,AKIA1,SECRET1"; ",AKIA2,SECRET2"] ++ ["bob,AKIA3,SECRET3"])
    [0; 1; 2]
  = inl (CredentialParserError (_INVALID_USERNAME 2)).
Proof.
  apply (rows_fail_fast strict_parser
           ["alice,AKIA1,SECRET1"; ",AKIA2,SECRET2"]).
  reflexivity.
Defined.

Lemma triples_app u a s rows more :
  filter complete (triples u a s (rows ++ more))
  = filter complete (triples u a s rows)
    ++ filter complete (triples u a s more).
Proof. unfold triples. now rewrite flat_map_app, filter_app. Qed.

(** X16. When the row stage returns on two lists of rows, it returns on
    their concatenation the concatenation of the two results. *)
Theorem rows_compose self rows more headers creds creds' :
  _parse_csv_rows self rows headers = inr creds ->
  _parse_csv_rows self more headers = inr creds' ->
  _parse_csv_rows self (rows ++ more) headers = inr (creds ++ creds').
Proof.
  unfold _parse_csv_rows.
  destruct headers as [|u [|a [|s [|x headers]]]]; try discriminate.
  intros H1 H2.
  apply rows_loop_return_inv in H1 as [P1 ->].
  apply rows_loop_return_inv in H2 as [P2 ->].
  rewrite rows_loop_all_pass by (apply Forall_app; auto).
  now rewrite triples_app.
Qed.

Lemma rows_compose_witness :
  _parse_csv_rows lenient_parser
    (["alice,AKIA1,SECRET1"; ",AKIA2,SECRET2"] ++ ["bob,AKIA3,SECRET3"])
    [0; 1; 2]
  = inr ([("alice", "AKIA1", "SECRET1")] ++ [("bob", "AKIA3", "SECRET3")]).
Proof.
  apply (rows_compose lenient_parser
           ["alice,AKIA1,SECRET1"; ",AKIA2,SECRET2"] ["bob,AKIA3,SECRET3"]);
    reflexivity.
Defined.

(** *** The command *)

(** X17. When [_import_csv] returns, the parse returned a list of
    credentials, one line was written to the output stream, stating the
    length of that list, which is at most the number of data lines, and
    the parser object is the same; when the text has its header line
    only, the content of the credentials file is the same too. *)
Theorem _import_csv_reports_count w csv w' :
  _import_csv w csv = (inr tt, w') ->
  exists creds,
    parse_credentials (_csv_parser w) csv = inr creds
    /\ _out_stream w' = _out_stream w ++ [import_msg (length creds)]
    /\ length creds <= length (splitlines csv) - 1
    /\ _csv_parser w' = _csv_parser w
    /\ (length (splitlines csv) = 1 ->
        credentials_file w' = credentials_file w).
Proof.
  unfold _import_csv.
  destruct (parse_credentials (_csv_parser w) csv) as [e|creds] eqn:E;
    [discriminate|].
  intro H. inversion H; subst w'. clear H. exists creds. simpl.
  pose proof (parse_outcome (_csv_parser w) csv) as O. rewrite E in O.
  remember (@inr exn (list Credential) creds) as r eqn:R.
  destruct O as [B | h rows label B L M | h pre row post u a s L Hu Ha Hs P F
          | h pre row post u a s c L Hu Ha Hs P F C S | h rows u a s L Hu Ha Hs P];
    try discriminate.
  inversion R; subst creds. rewrite L.
  replace (length (h :: rows) - 1) with (length rows) by (simpl; lia).
  repeat split; auto using triples_length.
  intro One. destruct rows; [reflexivity | discriminate].
Qed.

Lemma _import_csv_reports_count_witness :
  exists creds,
    parse_credentials lenient_parser csv_header_only = inr creds
    /\ [import_msg 0] = [] ++ [import_msg (length creds)]
    /\ length creds <= length (splitlines csv_header_only) - 1
    /\ lenient_parser = lenient_parser
    /\ (length (splitlines csv_header_only) = 1 ->
        file_only_key = file_only_key).
Proof.
  apply (_import_csv_reports_count
           {| _csv_parser := lenient_parser; credentials_file := file_only_key;
              _out_stream := [] |}
           csv_header_only
           {| _csv_parser := lenient_parser; credentials_file := file_only_key;
              _out_stream := [import_msg 0] |}).
  reflexivity.
Defined.

(** *** The lines of the text *)

Lemma splitlines_cons_not_cr c t :
  Ascii.eqb c CR = false ->
  splitlines (String c t) =
  if is_linebreak c
  then match t with
       | EmptyString => [EmptyString]
       | String _ _ => EmptyString :: splitlines t
       end
  else cons_first c (splitlines t).
Proof.
  intro H. destruct t as [|c' t]; [reflexivity|].
  rewrite splitlines_cons2, H. reflexivity.
Qed.

Lemma splitlines_crlf s :
  has_char is_cr s = false -> splitlines (crlf s) = splitlines s.
Proof.
  induction s as [|c s IH]; [reflexivity|].
  cbn [has_char crlf]. intro H. apply orb_false_iff in H as [Hc Hs].
  specialize (IH Hs). unfold is_cr in Hc.
  destruct (Ascii.eqb c LF) eqn:E.
  - apply Ascii.eqb_eq in E. subst c.
    rewrite splitlines_cons2.
    change (is_linebreak CR) with true.
    change (Ascii.eqb CR CR && Ascii.eqb LF LF) with true.
    cbv iota. rewrite IH.
    destruct s as [|c' s]; reflexivity.
  - rewrite !splitlines_cons_not_cr by assumption. rewrite IH.
    destruct s as [|c' s]; [reflexivity|].
    cbn [crlf]. destruct (Ascii.eqb c' LF); reflexivity.
Qed.

Lemma blank_crlf s : blank (crlf s) = blank s.
Proof.
  induction s as [|c s IH]; [reflexivity|].
  cbn [crlf]. destruct (Ascii.eqb c LF) eqn:E.
  - apply Ascii.eqb_eq in E. subst c. cbn [blank]. now rewrite IH.
  - cbn [blank]. now rewrite IH.
Qed.

(** X18. On a text without carriage returns, writing every line ending
    as CR LF does not change the result of the parse. *)
Theorem crlf_line_endings self csv :
  has_char is_cr csv = false ->
  parse_credentials self (crlf csv) = parse_credentials self csv.
Proof.
  intro H. unfold parse_credentials, _parse_csv.
  now rewrite !is_empty_strip, blank_crlf, splitlines_crlf.
Qed.

Lemma crlf_line_endings_witness :
  parse_credentials lenient_parser (crlf csv_alice)
  = parse_credentials lenient_parser csv_alice.
Proof.
  apply (crlf_line_endings lenient_parser csv_alice). reflexivity.
Defined.

(** X19. A text that is not blank but whose first line is (a text that
    begins with an empty line, for one) makes the parse raise the
    header-not-found message for the user-name label, whatever follows
    the first line. *)
Theorem blank_first_line self csv h rows :
  splitlines csv = h :: rows ->
  blank h = true ->
  blank csv = false ->
  parse_credentials self csv
  = inl (CredentialParserError (_HEADER_NOT_FOUND _USERNAME_HEADER)).
Proof.
  intros L Bh B. unfold parse_credentials.
  rewrite (_parse_csv_lines self csv h rows L B), _parse_csv_headers_spec.
  destruct (position _USERNAME_HEADER h) as [u|] eqn:Hu; [|reflexivity].
  assert (blank h = false)
    by (apply (position_not_blank _USERNAME_HEADER h u); simpl; auto).
  congruence.
Qed.

Lemma blank_first_line_witness :
  parse_credentials lenient_parser csv_leading_newline
  = inl (CredentialParserError (_HEADER_NOT_FOUND _USERNAME_HEADER)).
Proof.
  apply (blank_first_line lenient_parser csv_leading_newline EmptyString
           [header_plain; "alice,AKIA1,SECRET1"; ",AKIA2,SECRET2"]);
    reflexivity.
Defined.

End ParserExtras.
